(** * block-validation: wire values, transactions, fees and the peer registry

    A shallow embedding of [src/server.go], which holds three Go files:
    the peer registry ([package main], [Server]), the transaction codec and
    fee table ([package main], [Transaction], [InitFees]) and the generic
    decoded value ([package ethutil], [Value]).

    Conventions.
    - Go's fixed-width integers are [Z] with the wrap-around written out
      ([to_uint64], [wrap_int64]).
    - [[]byte] is [list byte]; a Go [string] is [string].
    - [interface{}] is the inductive [iface], one constructor per dynamic
      type the sources distinguish.
    - A call that may panic returns [outcome]. *)

From Stdlib Require Import ZArith Lia List Strings.Ascii Strings.String Strings.Byte.
From stdpp Require Import base option list gmap strings.

Local Open Scope Z_scope.

(** ** Results of Go calls *)

Inductive outcome (A : Type) : Type :=
| Ret (a : A)
| Panic (msg : string)
| OutOfFuel.

Arguments Ret {A} a.
Arguments Panic {A} msg.
Arguments OutOfFuel {A}.

Definition obind {A B : Type} (m : outcome A) (k : A -> outcome B) : outcome B :=
  match m with
  | Ret a => k a
  | Panic msg => Panic msg
  | OutOfFuel => OutOfFuel
  end.

#[global] Instance outcome_ret : MRet outcome := fun A a => Ret a.
#[global] Instance outcome_bind : MBind outcome := fun A B k m => obind m k.

(** ** Machine integers *)

Definition to_uint64 (z : Z) : Z := z mod 2 ^ 64.

Definition wrap_int64 (z : Z) : Z := (z + 2 ^ 63) mod 2 ^ 64 - 2 ^ 63.

Definition byte_val (b : byte) : Z := Z.of_N (Byte.to_N b).

(** The low eight bits of [z] as a byte. *)
Definition byte_of (z : Z) : byte :=
  default x00 (Byte.of_N (Z.to_N (z mod 256))).

(** The number a byte string denotes when read most significant byte
    first: the sum of [b_i * 256^(n-1-i)]. *)
Fixpoint big_endian (b : list byte) : Z :=
  match b with
  | [] => 0
  | x :: r => byte_val x * 256 ^ Z.of_nat (length r) + big_endian r
  end.

(** The [w] low bytes of [n], most significant first. *)
Fixpoint be_bytes (w : nat) (n : Z) : list byte :=
  match w with
  | O => []
  | S w' => byte_of (n / 256 ^ Z.of_nat w') :: be_bytes w' n
  end.

(** ** package ethutil: Value *)

Module Ethutil.

#[local] Set Warnings "-register-all".

(** The dynamic content of an [interface{}]: the types that the type
    switches of value.go tell apart, and [[]string], which transaction.go
    stores in a slice of [interface{}]. *)
Inductive iface : Type :=
| INil
| IUint8 (n : Z)
| IUint16 (n : Z)
| IUint32 (n : Z)
| IUint64 (n : Z)
| IInt (n : Z)
| IUint (n : Z)
| IBytes (b : list byte)
| IString (s : string)
| IBigInt (z : Z)
| ISlice (d : list iface)
| IStrings (l : list string).

(** [type Value struct { Val interface{}; kind reflect.Value }]; no function
    of value.go reads or writes [kind]. *)
Record Value : Type := mkValue { Val : iface }.

Definition NewValue (val : iface) : Value := mkValue val.

Definition IsNil (val : Value) : bool :=
  match Val val with INil => true | _ => false end.

Definition Len (val : Value) : Z :=
  match Val val with
  | ISlice data => Z.of_nat (length data)
  | IBytes data => Z.of_nat (length data)
  | _ => 0
  end.

(** Modelled from the spec: [ReadVarint] is a helper of package ethutil that
    is not among the sources.  Section 4.1 has raw byte-strings "treated as
    big-endian variable-length integers"; the result type [uint64] is the
    one [Value.Uint] returns it at.  The bytes are folded most significant
    first into a 64-bit accumulator. *)
Definition ReadVarint (b : list byte) : Z :=
  fold_left (fun acc x => to_uint64 (acc * 256 + byte_val x)) b 0.

Definition Uint (val : Value) : outcome Z :=
  match Val val with
  | IUint8 v => Ret (to_uint64 v)
  | IUint16 v => Ret (to_uint64 v)
  | IUint32 v => Ret (to_uint64 v)
  | IUint64 v => Ret v
  | IInt v => Ret (to_uint64 v)
  | IUint v => Ret (to_uint64 v)
  | IBytes v => Ret (ReadVarint v)
  | _ => Ret 0
  end.

Definition Byte (val : Value) : outcome Z :=
  match Val val with
  | IUint8 v => Ret v
  | _ => Ret 0
  end.

(** [big.Int.SetBytes] reads a big-endian unsigned integer of any length. *)
Definition SetBytes (a : list byte) : Z :=
  fold_left (fun acc x => acc * 256 + byte_val x) a 0.

Definition BigInt (val : Value) : outcome Z :=
  match Val val with
  | IBytes a => Ret (SetBytes a)
  | IBigInt a => Ret a
  | _ => u ← Uint val; Ret (wrap_int64 u)
  end.

Definition Str (val : Value) : outcome string :=
  match Val val with
  | IBytes a => Ret (string_of_list_byte a)
  | IString a => Ret a
  | _ => Ret EmptyString
  end.

Definition Bytes (val : Value) : outcome (list byte) :=
  match Val val with
  | IBytes a => Ret a
  | _ => Ret []
  end.

Definition Slice (val : Value) : outcome (list iface) :=
  match Val val with
  | ISlice d => Ret d
  | _ => Ret []
  end.

(** [d[idx]] for an [idx] the guards let through; Go's own bounds check is
    kept for the case the guards would miss. *)
Definition index (d : list iface) (idx : Z) : outcome iface :=
  match d !! Z.to_nat idx with
  | Some x => Ret x
  | None => Panic "index out of range"
  end.

Definition Get (val : Value) (idx : Z) : outcome Value :=
  match Val val with
  | ISlice d =>
      if Z.of_nat (length d) <=? idx then Ret (NewValue INil)
      else if idx <? 0 then Panic "negative idx for Value Get"
      else x ← index d idx; Ret (NewValue x)
  | _ => Ret (NewValue INil)
  end.

(** *** The wire codec

    [Encode] and [Decode] are functions of package ethutil (value.go calls
    them unqualified) that are not among the sources; value.go holds only
    their callers [Value.Encode] and [NewValueFromBytes]. *)

(** Section 3 of the spec: "WireValue: tagged union {ByteString(bytes),
    Sequence(ordered list of WireValue)}". *)
Inductive WireValue : Type :=
| ByteString (b : list byte)
| Sequence (children : list WireValue).

(** The Go value a WireValue tree is held as: [[]byte] and
    [[]interface{}], the two payloads the accessors of value.go read a
    byte-string and a sequence from. *)
Fixpoint iface_of (w : WireValue) : iface :=
  match w with
  | ByteString b => IBytes b
  | Sequence l => ISlice (map iface_of l)
  end.

Fixpoint wire_of (v : iface) : option WireValue :=
  match v with
  | IBytes b => Some (ByteString b)
  | ISlice d =>
      Sequence <$>
        (fix all (d : list iface) : option (list WireValue) :=
           match d with
           | [] => Some []
           | x :: r =>
               match wire_of x, all r with
               | Some w, Some ws => Some (w :: ws)
               | _, _ => None
               end
           end) d
  | _ => None
  end.

(** The two kinds of item a length header announces. *)
Inductive tag : Type := TagBytes | TagList.

Section Codec.

(** Section 6 of the spec leaves the byte layout of a header open: "exact
    on-wire byte layout (length-prefix width, type-tag encoding) must be
    internally self-consistent and symmetric between encode and decode, but
    is not otherwise constrained".  The layout is therefore a parameter:
    [put_header t n] writes the header of an item of kind [t] whose payload
    is [n] bytes long, [get_header] reads one off the front of the input and
    returns what follows it, or fails on "a short or malformed length
    prefix". *)
Variable put_header : tag -> nat -> list byte.
Variable get_header : list byte -> option (tag * nat * list byte).

(** Modelled from the spec: [Encode] is not among the sources.  Section
    4.1: "produces the canonical length-prefixed representation; encoding a
    Sequence recursively encodes and concatenates children's encodings
    prefixed by the sequence's own length header". *)
Fixpoint Encode (w : WireValue) : list byte :=
  match w with
  | ByteString b => put_header TagBytes (length b) ++ b
  | Sequence l =>
      let body := concat (map Encode l) in
      put_header TagList (length body) ++ body
  end.

(** Modelled from the spec: [Decode] is not among the sources.  Section
    4.1: "parses one length-prefixed item starting at offset; a short or
    malformed length prefix fails with a DecodeError and must not panic or
    read out of bounds".  [decode_item] parses one item off the front of
    its input and returns it with the bytes that follow; [decode_items]
    parses the payload of a sequence, item after item, to its end.  [None]
    is the DecodeError.  The recursion is on [fuel]. *)
Fixpoint decode_item (fuel : nat) (bs : list byte) : option (WireValue * list byte) :=
  match fuel with
  | O => None
  | S f =>
      match get_header bs with
      | None => None
      | Some (t, n, rest) =>
          if (length rest <? n)%nat then None
          else
            match t with
            | TagBytes => Some (ByteString (take n rest), drop n rest)
            | TagList =>
                match decode_items f (take n rest) with
                | Some l => Some (Sequence l, drop n rest)
                | None => None
                end
            end
      end
  end
with decode_items (fuel : nat) (body : list byte) : option (list WireValue) :=
  match body with
  | [] => Some []
  | _ :: _ =>
      match fuel with
      | O => None
      | S f =>
          match decode_item f body with
          | Some (w, rest) =>
              match decode_items f rest with
              | Some l => Some (w :: l)
              | None => None
              end
          | None => None
          end
      end
  end.

(** [Decode(data, pos)]: the item at offset [pos] and the number of bytes
    it takes.  The fuel is twice the length of the input, which is enough
    to decode every encoding of that length. *)
Definition Decode (data : list byte) (pos : nat) : option (WireValue * nat) :=
  match decode_item (2 * length data) (drop pos data) with
  | Some (w, rest) => Some (w, (length data - pos - length rest)%nat)
  | None => None
  end.

(** [func (val *Value) Encode() []byte { return Encode(val.Val) }]; [None]
    when the payload is no WireValue tree, on which the spec leaves [Encode]
    undefined. *)
Definition Value_Encode (val : Value) : option (list byte) :=
  Encode <$> wire_of (Val val).

Definition NewValueFromBytes (data : list byte) : option Value :=
  if negb (length data =? 0)%nat then
    match Decode data 0 with
    | Some (data, _) => Some (NewValue (iface_of data))
    | None => None
    end
  else Some (NewValue INil).

End Codec.

(** A layout that meets the spec's demand, for lengths below [2^64]: one
    byte for the kind of item, then the payload length as eight bytes, most
    significant first. *)
Definition tag_byte (t : tag) : byte :=
  match t with TagBytes => x00 | TagList => x01 end.

Definition tag_of_byte (b : byte) : option tag :=
  match b with
  | x00 => Some TagBytes
  | x01 => Some TagList
  | _ => None
  end.

Definition put_header8 (t : tag) (n : nat) : list byte :=
  tag_byte t :: be_bytes 8 (Z.of_nat n).

Definition get_header8 (bs : list byte) : option (tag * nat * list byte) :=
  match bs with
  | [] => None
  | tb :: r =>
      if (length r <? 8)%nat then None
      else
        match tag_of_byte tb with
        | Some t => Some (t, Z.to_nat (big_endian (take 8 r)), drop 8 r)
        | None => None
        end
  end.

(** A tree with a byte-string, an empty sequence and a nested sequence. *)
Definition sample_tree : WireValue :=
  Sequence [ByteString [x01; x02]; Sequence []; Sequence [ByteString []]].

(** The native unsigned integer of [w] bytes that holds [n]. *)
Definition native (w : nat) (n : Z) : iface :=
  match w with
  | 1%nat => IUint8 n
  | 2%nat => IUint16 n
  | 4%nat => IUint32 n
  | _ => IUint64 n
  end.

(** The dynamic types an accessor's type switch has a case for. *)
Definition Uint_reads (v : iface) : bool :=
  match v with
  | IUint8 _ | IUint16 _ | IUint32 _ | IUint64 _ | IInt _ | IUint _ | IBytes _ => true
  | _ => false
  end.

Definition Byte_reads (v : iface) : bool :=
  match v with IUint8 _ => true | _ => false end.

Definition Str_reads (v : iface) : bool :=
  match v with IBytes _ | IString _ => true | _ => false end.

Definition Bytes_reads (v : iface) : bool :=
  match v with IBytes _ => true | _ => false end.

Definition Slice_reads (v : iface) : bool :=
  match v with ISlice _ => true | _ => false end.

(** *** The rest of the accessors and the setters *)

(** [reflect.Kind], for the dynamic types of [iface]. *)
Inductive Kind : Type :=
| KUint8 | KUint16 | KUint32 | KUint64 | KInt | KUint | KSlice | KString | KPtr.

(** [func (val *Value) Type() reflect.Kind]:
    [reflect.TypeOf(val.Val).Kind()].  [reflect.TypeOf] of a nil interface
    is a nil [reflect.Type], and the call of [Kind] on it panics. *)
Definition Value_Type (val : Value) : outcome Kind :=
  match Val val with
  | INil => Panic "invalid memory address or nil pointer dereference"
  | IUint8 _ => Ret KUint8
  | IUint16 _ => Ret KUint16
  | IUint32 _ => Ret KUint32
  | IUint64 _ => Ret KUint64
  | IInt _ => Ret KInt
  | IUint _ => Ret KUint
  | IBytes _ => Ret KSlice
  | IString _ => Ret KString
  | IBigInt _ => Ret KPtr
  | ISlice _ => Ret KSlice
  | IStrings _ => Ret KSlice
  end.

(** [func (val *Value) SliceFrom(from int) *Value]:
    [slice := val.Slice(); return NewValue(slice[from:])].  Go checks
    [0 <= from <= len(slice)] and panics otherwise. *)
Definition SliceFrom (val : Value) (from : Z) : outcome Value :=
  slice ← Slice val;
  if (from <? 0) || (Z.of_nat (length slice) <? from)
  then Panic "slice bounds out of range"
  else Ret (NewValue (ISlice (drop (Z.to_nat from) slice))).

(** [func EmptyValue() *Value]. *)
Definition EmptyValue : Value := NewValue (ISlice []).

(** [func (val *Value) Append(v interface{}) *Value]:
    [val.Val = append(val.Slice(), v); return val].  The result is the
    value [val] points to after the call.  Items are values here: a
    backing array that two slices share is not modelled. *)
Definition Append (val : Value) (v : iface) : outcome Value :=
  slice ← Slice val;
  Ret (mkValue (ISlice (slice ++ [v]))).

(** The loop [for _, val := range slice { list.Append(val) }]. *)
Fixpoint append_all (list_ : Value) (slice : list iface) : outcome Value :=
  match slice with
  | [] => Ret list_
  | val :: slice => list_ ← Append list_ val; append_all list_ slice
  end.

(** [func NewSliceValue(s interface{}) *Value]. *)
Definition NewSliceValue (s : iface) : outcome Value :=
  let list_ := EmptyValue in
  match s with
  | INil => Ret list_
  | ISlice slice => append_all list_ slice
  | IStrings slice => append_all list_ (map IString slice)
  | _ => Ret list_
  end.

End Ethutil.

(** ** package main: transactions and the fee table *)

Module Tx.

Import Ethutil.

(** *** math/big *)

(** [z.Exp(x, y, m)]: [x**y mod |m|], and [x**y] when [m] is zero; a
    non-positive exponent gives 1. *)
Definition big_Exp (x y m : Z) : Z :=
  let p := if y <=? 0 then 1 else x ^ y in
  if m =? 0 then p else p mod Z.abs m.

(** [z.Div(x, y)]: the Euclidean quotient.  Go panics on a zero divisor;
    [InitFees] divides by the literals 64, 4 and 16 only. *)
Definition big_Div (x y : Z) : Z := Z.sgn y * (x / Z.abs y).

Definition big_Mul (x y : Z) : Z := x * y.

(** *** The fee table

    The eleven package-level [*big.Int] variables, as a store from the
    variable's name to its value; each starts as [new(big.Int)], zero. *)
Abbreviation globals := (gmap string Z).

Definition fee_names : list string :=
  ["StepFee"; "TxFee"; "ContractFee"; "MemFee"; "DataFee"; "CryptoFee";
   "ExtroFee"; "Period1Reward"; "Period2Reward"; "Period3Reward";
   "Period4Reward"]%string.

Definition new_globals : globals :=
  list_to_map (map (fun name => (name, 0)) fee_names).

Definition InitFees (g : globals) : globals :=
  let b60 := big_Exp 2 64 0 in
  let b80 := big_Exp 2 80 0 in
  let g := <["StepFee"%string := big_Div b60 64]> g in
  let g := <["TxFee"%string := big_Exp 2 64 0]> g in
  let g := <["ContractFee"%string := big_Exp 2 64 0]> g in
  let g := <["MemFee"%string := big_Div b60 4]> g in
  let g := <["DataFee"%string := big_Div b60 16]> g in
  let g := <["CryptoFee"%string := big_Div b60 16]> g in
  let g := <["ExtroFee"%string := big_Div b60 16]> g in
  let g := <["Period1Reward"%string := big_Mul b80 1024]> g in
  let g := <["Period2Reward"%string := big_Mul b80 512]> g in
  let g := <["Period3Reward"%string := big_Mul b80 256]> g in
  let g := <["Period4Reward"%string := big_Mul b80 128]> g in
  g.

(** *** Transactions *)

(** [type Transaction struct]; the embedded [RlpSerializer] interface
    carries no data. *)
Record Transaction : Type := mkTransaction {
  sender : string;
  recipient : Z;
  value : Z;
  fee : Z;
  data : list string;
  memory : list Z;
  signature : string;
  addr : string
}.

(** [encoding/hex.EncodeToString]: two lower-case digits per byte. *)
Definition hex_digit (n : N) : ascii :=
  match String.get (N.to_nat n) "0123456789abcdef" with
  | Some c => c
  | None => "0"%char
  end.

Fixpoint hex_EncodeToString (b : list byte) : string :=
  match b with
  | [] => EmptyString
  | x :: r =>
      String (hex_digit (Byte.to_N x / 16))
        (String (hex_digit (Byte.to_N x mod 16)) (hex_EncodeToString r))
  end.

Section Transactions.

(** Helpers of package main that are not among the sources, and
    [crypto/sha256.Sum256]; each is a pure function of its argument.
    [CompileInstr] also returns an error, which [NewTransaction] only
    prints. *)
Variable CompileInstr : string -> string.
Variable RlpEncode : iface -> string.
Variable Uitoa : Z -> string.
Variable sha256_Sum256 : list byte -> list byte.

(** The length of the address prefix, [hash[0:19]] in [NewTransaction]. *)
Definition addr_len : nat := 19.

Definition MarshalRlp (tx : Transaction) : list byte :=
  let preEnc :=
    ISlice [ IString "0";
             IString (sender tx);
             IString (Uitoa (recipient tx));
             IString (Uitoa (value tx));
             IString (Uitoa (fee tx));
             IStrings (data tx) ] in
  list_byte_of_string (RlpEncode preEnc).

(** The last three statements of [NewTransaction]: the address of [tx]. *)
Definition derive_addr (tx : Transaction) : string :=
  let b := MarshalRlp tx in
  let hash := sha256_Sum256 b in
  hex_EncodeToString (take addr_len hash).

Definition set_addr (tx : Transaction) (a : string) : Transaction :=
  {| sender := sender tx; recipient := recipient tx; value := value tx;
     fee := fee tx; data := data tx; memory := memory tx;
     signature := signature tx; addr := a |}.

Definition NewTransaction (to value : Z) (data : list string) : Transaction :=
  let tx :=
    {| sender := "1234567890"; recipient := to; value := value; fee := 0;
       data := map CompileInstr data; memory := [];
       signature := EmptyString; addr := EmptyString |} in
  set_addr tx (derive_addr tx).

End Transactions.

End Tx.

(** ** container/list

    The doubly linked list of Go's standard library, which [Server.peers]
    is, as it has been since Go 1.2: a ring through the sentinel [root],
    and a [remove] that clears the [next], [prev] and [list] of the element
    it takes out.  An [*Element] is an address in a heap of elements, [nil]
    is [None]; a [List] is known by the address of its sentinel [root],
    which stands for [&l.root] and for the [*List] itself. *)

Module GoList.

Record Element : Type := mkElement {
  next : option nat;
  prev : option nat;
  elist : option nat;       (* the list the element belongs to, or nil *)
  Value : nat               (* the [*Peer] the element holds *)
}.

Record List : Type := mkList {
  root : nat;
  len : Z
}.

Abbreviation heap := (gmap nat Element).

Definition set_next (p : option nat) (e : Element) : Element :=
  mkElement p (prev e) (elist e) (Value e).
Definition set_prev (p : option nat) (e : Element) : Element :=
  mkElement (next e) p (elist e) (Value e).
Definition set_elist (p : option nat) (e : Element) : Element :=
  mkElement (next e) (prev e) p (Value e).

(** Following a pointer. *)
Definition load (h : heap) (p : option nat) : outcome Element :=
  match p with
  | None => Panic "nil pointer dereference"
  | Some a =>
      match h !! a with
      | Some e => Ret e
      | None => Panic "invalid address"
      end
  end.

(** Assigning through a pointer: [p.field = v] is [store h p (set_field v)]. *)
Definition store (h : heap) (p : option nat) (f : Element -> Element) : outcome heap :=
  match p with
  | None => Panic "nil pointer dereference"
  | Some a =>
      match h !! a with
      | Some e => Ret (<[a := f e]> h)
      | None => Panic "invalid address"
      end
  end.

(** [func (e *Element) Next() *Element]:
    [if p := e.next; e.list != nil && p != &e.list.root { return p }; return nil]. *)
Definition Next (h : heap) (e : option nat) : outcome (option nat) :=
  el ← load h e;
  let p := next el in
  match elist el with
  | Some l => if decide (p = Some l) then Ret None else Ret p
  | None => Ret None
  end.

(** [func (l *List) Init() *List], on a list whose sentinel is allocated. *)
Definition Init (h : heap) (l : List) : outcome (heap * List) :=
  h ← store h (Some (root l)) (set_next (Some (root l)));
  h ← store h (Some (root l)) (set_prev (Some (root l)));
  Ret (h, mkList (root l) 0).

(** [func New() *List]: a fresh sentinel, then [Init]. *)
Definition New (h : heap) : outcome (heap * List) :=
  let a := fresh (dom h) in
  Init (<[a := mkElement None None None 0%nat]> h) (mkList a 0).

Definition Len (l : List) : Z := len l.

(** [func (l *List) Front() *Element]. *)
Definition Front (h : heap) (l : List) : outcome (option nat) :=
  if len l =? 0 then Ret None
  else root_el ← load h (Some (root l)); Ret (next root_el).

Definition lazyInit (h : heap) (l : List) : outcome (heap * List) :=
  root_el ← load h (Some (root l));
  match next root_el with
  | None => Init h l
  | Some _ => Ret (h, l)
  end.

(** [func (l *List) insert(e, at *Element) *Element]:
    [n := at.next; at.next = e; e.prev = at; e.next = n; n.prev = e;
     e.list = l; l.len++]. *)
Definition insert (h : heap) (l : List) (e at_ : option nat) : outcome (heap * List) :=
  at_el ← load h at_;
  let n := next at_el in
  h ← store h at_ (set_next e);
  h ← store h e (set_prev at_);
  h ← store h e (set_next n);
  h ← store h n (set_prev e);
  h ← store h e (set_elist (Some (root l)));
  Ret (h, mkList (root l) (len l + 1)).

(** [func (l *List) PushBack(v interface{}) *Element]:
    [l.lazyInit(); return l.insertValue(v, l.root.prev)], where
    [insertValue] allocates [&Element{Value: v}]. *)
Definition PushBack (h : heap) (l : List) (v : nat) : outcome (heap * List * option nat) :=
  '(h, l) ← lazyInit h l;
  root_el ← load h (Some (root l));
  let e := fresh (dom h) in
  let h := <[e := mkElement None None None v]> h in
  '(h, l) ← insert h l (Some e) (prev root_el);
  Ret (h, l, Some e).

(** [func (l *List) remove(e *Element) *Element]:
    [e.prev.next = e.next; e.next.prev = e.prev; e.next = nil; e.prev = nil;
     e.list = nil; l.len--]. *)
Definition remove (h : heap) (l : List) (e : option nat) : outcome (heap * List) :=
  el ← load h e;
  h ← store h (prev el) (set_next (next el));
  el ← load h e;
  h ← store h (next el) (set_prev (prev el));
  h ← store h e (set_next None);
  h ← store h e (set_prev None);
  h ← store h e (set_elist None);
  Ret (h, mkList (root l) (len l - 1)).

(** [func (l *List) Remove(e *Element) interface{}]:
    [if e.list == l { l.remove(e) }; return e.Value]. *)
Definition Remove (h : heap) (l : List) (e : option nat) : outcome (heap * List) :=
  el ← load h e;
  if decide (elist el = Some (root l)) then remove h l e else Ret (h, l).

End GoList.

(** ** package main: the peer registry *)

Module Srv.

Import GoList.

(** *** package time *)

Definition time_Nanosecond : Z := 1.
Definition time_Microsecond : Z := 1000 * time_Nanosecond.
Definition time_Millisecond : Z := 1000 * time_Microsecond.
Definition time_Second : Z := 1000 * time_Millisecond.
Definition time_Minute : Z := 60 * time_Second.

Definition processReapingTimeout : Z := 60.

(** *** Peers *)

(** [ethwire.NewMessage(msgType, data)]: a message is its type and its
    payload. *)
Record Msg : Type := NewMessage {
  msg_type : string;
  msg_data : list byte
}.

(** Modelled from the spec: [type Peer struct] is declared in a file of
    package main that is not among the sources.  Section 3: "Peer: {
    connection handle, role, outgoing message queue,
    last-liveness-timestamp, disconnect flag, owning registry reference }".
    The fields are named as server.go reads them ([p.inbound],
    [p.disconnect], [p.lastPong]); [disconnect] is the [int32] read with
    [atomic.LoadInt32], [lastPong] the [int64] subtracted from
    [time.Now().Unix()].  The connection handle and the back-reference play
    no part in what server.go does with a peer. *)
Record Peer : Type := mkPeer {
  inbound : bool;
  disconnect : Z;
  lastPong : Z;
  outputQueue : list Msg
}.

(** Modelled from the spec: [NewPeer] and [NewOutboundPeer] are not among
    the sources.  A new peer has its role, an empty queue and a clear
    disconnect flag; [pong] is its first liveness timestamp, which the spec
    leaves open. *)
Definition NewPeer (inbound : bool) (pong : Z) : Peer :=
  mkPeer inbound 0 pong [].

(** Modelled from the spec: [Peer.Stop] is not among the sources.  Section
    4.2: "sets the disconnect flag". *)
Definition Peer_Stop (p : Peer) : Peer :=
  mkPeer (inbound p) 1 (lastPong p) (outputQueue p).

(** *** The server *)

(** [type Server struct]: the peer list [peers], with the two heaps its
    pointers lead into.  [shutdownChan], [db], [blockManager], [txPool] and
    [Nonce] play no part in the functions modelled here. *)
Record Server : Type := mkServer {
  peers : List;
  elems : heap;
  peer_heap : gmap nat Peer
}.

Definition set_list (s : Server) (hl : heap * List) : Server :=
  mkServer hl.2 hl.1 (peer_heap s).

Definition set_peer (s : Server) (p : nat) (x : Peer) : Server :=
  mkServer (peers s) (elems s) (<[p := x]> (peer_heap s)).

Definition load_peer (s : Server) (p : nat) : outcome Peer :=
  match peer_heap s !! p with
  | Some x => Ret x
  | None => Panic "nil pointer dereference"
  end.

(** [NewServer], as far as the peer list goes: [peers: list.New()]. *)
Definition NewServer : outcome Server :=
  hl ← New ∅;
  Ret (mkServer hl.2 hl.1 ∅).

(** The loop of [eachPeer] from element [e] on.  [callback] runs on the
    server and on the variables its closure captures ([A]); the next
    element is read after the callback has run.  Every element of
    [Server.peers] holds a [*Peer], so the type assertion succeeds. *)
Fixpoint eachPeer_from {A : Type} (fuel : nat)
    (callback : nat -> nat -> Server * A -> outcome (Server * A))
    (e : option nat) (st : Server * A) : outcome (Server * A) :=
  match e with
  | None => Ret st
  | Some a =>
      match fuel with
      | O => OutOfFuel
      | S fuel =>
          el ← load (elems st.1) (Some a);
          st ← callback (Value el) a st;
          e ← Next (elems st.1) (Some a);
          eachPeer_from fuel callback e st
      end
  end.

(** [eachPeer(s.peers, callback)].  A list of [Len] elements is walked in
    [Len] steps. *)
Definition eachPeer {A : Type}
    (callback : nat -> nat -> Server * A -> outcome (Server * A))
    (st : Server * A) : outcome (Server * A) :=
  e ← Front (elems st.1) (peers st.1);
  eachPeer_from (S (Z.to_nat (Len (peers st.1)))) callback e st.

(** [AddPeer]: [NewPeer(conn, s, true)], [PushBack], [Start].  The new
    peer is allocated at a fresh address, so it is not nil; starting it
    launches its read and write activities and leaves the registry as it
    is. *)
Definition AddPeer (s : Server) (pong : Z) : outcome Server :=
  let p := fresh (dom (peer_heap s)) in
  let s := set_peer s p (NewPeer true pong) in
  '(hl, _) ← PushBack (elems s) (peers s) p;
  Ret (set_list s hl).

Definition ConnectToPeer (s : Server) (pong : Z) : outcome Server :=
  let p := fresh (dom (peer_heap s)) in
  let s := set_peer s p (NewPeer false pong) in
  '(hl, _) ← PushBack (elems s) (peers s) p;
  Ret (set_list s hl).

(** The slice [make([]*Peer, s.peers.Len())] with the counter [length]. *)
Definition collect (want : bool) (p e : nat) (st : Server * (list (option nat) * nat))
    : outcome (Server * (list (option nat) * nat)) :=
  let '(s, (out, length)) := st in
  x ← load_peer s p;
  if Bool.eqb (inbound x) want then
    if decide (length < List.length out)%nat
    then Ret (s, (<[length := Some p]> out, S length))
    else Panic "index out of range"
  else Ret st.

Definition OutboundPeers (s : Server) : outcome (list (option nat)) :=
  let outboundPeers := replicate (Z.to_nat (Len (peers s))) None in
  '(_, (out, length)) ← eachPeer (collect false) (s, (outboundPeers, 0%nat));
  Ret (take length out).

Definition InboundPeers (s : Server) : outcome (list (option nat)) :=
  let inboundPeers := replicate (Z.to_nat (Len (peers s))) None in
  '(_, (out, length)) ← eachPeer (collect true) (s, (inboundPeers, 0%nat));
  Ret (take length out).

Section Broadcasting.

(** Modelled from the spec: [Peer.QueueMessage] is not among the sources.
    Section 4.2: "appends a framed WireCodec-encoded message to the
    outgoing queue".  Section 4.3 speaks of a "failure to enqueue on one
    peer" and does not say when a peer fails to take a message, so that is
    the parameter [accepts]. *)
Variable accepts : Peer -> bool.

Definition QueueMessage (p : Peer) (msg : Msg) : Peer :=
  if accepts p
  then mkPeer (inbound p) (disconnect p) (lastPong p) (outputQueue p ++ [msg])
  else p.

(** The function literal [Broadcast] hands to [eachPeer]; it captures the
    message and no variable. *)
Definition Broadcast_func (msg : Msg) (p e : nat) (st : Server * unit)
    : outcome (Server * unit) :=
  x ← load_peer st.1 p;
  Ret (set_peer st.1 p (QueueMessage x msg), tt).

Definition Broadcast (s : Server) (msgType : string) (data : list byte) : outcome Server :=
  st ← eachPeer (Broadcast_func (NewMessage msgType data)) (s, tt);
  Ret st.1.

End Broadcasting.

(** The test of [ReapDeadPeers] on peer [p] when [time.Now().Unix()] is
    [now]:
    [atomic.LoadInt32(&p.disconnect) == 1 ||
     (p.inbound && (time.Now().Unix()-p.lastPong) > int64(5*time.Minute))]. *)
Definition dead (p : Peer) (now : Z) : bool :=
  (disconnect p =? 1)
  || (inbound p && (wrap_int64 (now - lastPong p) >? wrap_int64 (5 * time_Minute))).

(** The function literal [ReapDeadPeers] hands to [eachPeer]: a dead peer's
    element is removed from [s.peers]. *)
Definition ReapDeadPeers_func (now : Z) (p e : nat) (st : Server * unit)
    : outcome (Server * unit) :=
  x ← load_peer st.1 p;
  if dead x now then
    hl ← Remove (elems st.1) (peers st.1) (Some e);
    Ret (set_list st.1 hl, tt)
  else Ret st.

(** One round of the [for] loop of [ReapDeadPeers], up to its
    [time.Sleep]; the loop itself never ends.  The clock reads [now]
    throughout the round. *)
Definition ReapDeadPeers_pass (s : Server) (now : Z) : outcome Server :=
  st ← eachPeer (ReapDeadPeers_func now) (s, tt);
  Ret st.1.

(** The dead-peer rule in the words of section 4.2 of the spec: the
    disconnect flag is set, or the peer is inbound and its last liveness
    update is more than 5 minutes old.  [now] and [lastPong] count seconds,
    as [time.Now().Unix()] does, so 5 minutes are 300. *)
Definition dead_by_spec (p : Peer) (now : Z) : bool :=
  (disconnect p =? 1) || (inbound p && (now - lastPong p >? 5 * 60)).

(** *** The shape of a registry *)

(** From [a], the [next] pointers lead through the elements [es], each of
    which belongs to the list [r], and then back to the sentinel [r]; the
    [prev] pointers lead the same way back. *)
Fixpoint linked (h : heap) (r a : nat) (es : list nat) : Prop :=
  match es with
  | [] =>
      next <$> h !! a = Some (Some r)
      /\ prev <$> h !! r = Some (Some a)
  | e :: es' =>
      next <$> h !! a = Some (Some e)
      /\ e <> r
      /\ elist <$> h !! e = Some (Some r)
      /\ prev <$> h !! e = Some (Some a)
      /\ linked h r e es'
  end.

(** The peers the elements [es] hold. *)
Definition held (h : heap) (es : list nat) : list nat :=
  omap (fun e => Value <$> h !! e) es.

(** [s.peers] is the list of the elements [es]: they are linked in this
    order, [Len] counts them, and they hold distinct, allocated peers (as
    [AddPeer] and [ConnectToPeer], which allocate the peer they push,
    leave them). *)
Record registry (s : Server) (es : list nat) : Prop := mkRegistry {
  reg_linked : linked (elems s) (root (peers s)) (root (peers s)) es;
  reg_elems : NoDup es;
  reg_len : Len (peers s) = Z.of_nat (length es);
  reg_nodup : NoDup (held (elems s) es);
  reg_alloc : forall p, p ∈ held (elems s) es -> is_Some (peer_heap s !! p)
}.

(** What [PushBack] does to the heap: the new element [e], which holds
    [v], sits between the last element [a] and the sentinel [r]. *)
Record pushed (h h' : heap) (r a e v : nat) : Prop := mkPushed {
  pushed_new : h' !! e = Some (mkElement (Some r) (Some a) (Some r) v);
  pushed_next : forall x, x <> e ->
    next <$> h' !! x = if decide (x = a) then Some (Some e) else next <$> h !! x;
  pushed_prev : forall x, x <> e ->
    prev <$> h' !! x = if decide (x = r) then Some (Some e) else prev <$> h !! x;
  pushed_elist : forall x, x <> e -> elist <$> h' !! x = elist <$> h !! x;
  pushed_Value : forall x, x <> e -> Value <$> h' !! x = Value <$> h !! x
}.


(** What [Remove] does to the heap: the neighbours [pa] and [na] of [e]
    are linked to each other, and [e] keeps its value only. *)
Record removed (h h' : heap) (pa na e : nat) : Prop := mkRemoved {
  removed_self :
    h' !! e = (fun el => mkElement None None None (Value el)) <$> h !! e;
  removed_next : forall x, x <> e ->
    next <$> h' !! x = if decide (x = pa) then Some (Some na) else next <$> h !! x;
  removed_prev : forall x, x <> e ->
    prev <$> h' !! x = if decide (x = na) then Some (Some pa) else prev <$> h !! x;
  removed_elist : forall x, x <> e -> elist <$> h' !! x = elist <$> h !! x;
  removed_Value : forall x, Value <$> h' !! x = Value <$> h !! x
}.

(** The peer the element at [e] holds. *)
Definition peer_of (s : Server) (e : nat) : option Peer :=
  el ← elems s !! e; peer_heap s !! Value el.

(** The element at [e] holds a peer that the test of [ReapDeadPeers] takes
    for dead. *)
Definition dead_elem (s : Server) (now : Z) (e : nat) : bool :=
  match peer_of s e with
  | Some x => dead x now
  | None => false
  end.

(** The peer at [p] has the role [want] ([true] for inbound). *)
Definition has_role (s : Server) (want : bool) (p : nat) : Prop :=
  inbound <$> peer_heap s !! p = Some want.

#[global] Instance has_role_dec (s : Server) (want : bool) (p : nat) :
  Decision (has_role s want p).
Proof. unfold has_role. apply _. Defined.

(** The peer heap after each of the peers [ps], in turn, was handed
    [msg]. *)
Definition deliver (accepts : Peer -> bool) (msg : Msg)
    (ph : gmap nat Peer) (ps : list nat) : gmap nat Peer :=
  foldl (fun ph p =>
           match ph !! p with
           | Some x => <[p := QueueMessage accepts x msg]> ph
           | None => ph
           end) ph ps.

(** *** Reachable states *)

(** The states of the server that the modelled operations lead to from a
    new server.  A peer's own activity (a received message, an I/O error,
    [Stop]) may change the fields of that peer at any time. *)
Inductive reachable : Server -> Prop :=
| reach_NewServer s :
    NewServer = Ret s -> reachable s
| reach_AddPeer s s' pong :
    reachable s -> AddPeer s pong = Ret s' -> reachable s'
| reach_ConnectToPeer s s' pong :
    reachable s -> ConnectToPeer s pong = Ret s' -> reachable s'
| reach_Broadcast accepts s s' msgType data :
    reachable s -> Broadcast accepts s msgType data = Ret s' -> reachable s'
| reach_ReapDeadPeers s s' now :
    reachable s -> ReapDeadPeers_pass s now = Ret s' -> reachable s'
| reach_peer s p x :
    reachable s -> is_Some (peer_heap s !! p) -> reachable (set_peer s p x).

(** *** Sample registries *)

(** The result of a run that does not panic. *)
Definition the {A : Type} (m : outcome A) (d : A) : A :=
  match m with Ret a => a | _ => d end.

(** A new server to which three inbound connections were added, the
    scenario of section 8 of the spec.  The peers are at the addresses 0,
    1 and 2, their elements at 1, 2 and 3; the sentinel is at 0. *)
Definition three_inbound : Server :=
  the (s ← NewServer; s ← AddPeer s 0; s ← AddPeer s 0; AddPeer s 0)
      (mkServer (mkList 0 0) ∅ ∅).

(** The peer at address [p] sets its disconnect flag. *)
Definition stop_peer (s : Server) (p : nat) : Server :=
  match peer_heap s !! p with
  | Some x => set_peer s p (Peer_Stop x)
  | None => s
  end.

(** *** Peer lists, stopping, and the rounds of reaping *)

(** [ProcessPeerList]: [ConnectToPeer] on each address in turn; the error
    it returns is always nil and is dropped.  [pong addr] is the first
    liveness timestamp of the peer for [addr]. *)
Fixpoint ProcessPeerList (s : Server) (addrs : list string) (pong : string -> Z)
    : outcome Server :=
  match addrs with
  | [] => Ret s
  | addr :: addrs => s ← ConnectToPeer s (pong addr); ProcessPeerList s addrs pong
  end.

(** The function literal [Stop] hands to [eachPeer]: [p.Stop()]. *)
Definition Stop_func (p e : nat) (st : Server * unit) : outcome (Server * unit) :=
  x ← load_peer st.1 p;
  Ret (set_peer st.1 p (Peer_Stop x), tt).

(** [Stop], as far as the peer list goes: every registered peer is
    stopped.  Closing the database, the send on [shutdownChan] and stopping
    the transaction pool leave the peer list as it is. *)
Definition Stop (s : Server) : outcome Server :=
  st ← eachPeer Stop_func (s, tt);
  Ret st.1.

(** The first rounds of the [for] loop of [ReapDeadPeers], one for each
    clock reading of [nows]. *)
Fixpoint ReapDeadPeers_rounds (s : Server) (nows : list Z) : outcome Server :=
  match nows with
  | [] => Ret s
  | now :: nows => s ← ReapDeadPeers_pass s now; ReapDeadPeers_rounds s nows
  end.

(** [callback] on each of the elements [es] in turn, with the peer the
    element holds. *)
Fixpoint call_each {A : Type}
    (callback : nat -> nat -> Server * A -> outcome (Server * A))
    (es : list nat) (st : Server * A) : outcome (Server * A) :=
  match es with
  | [] => Ret st
  | e :: es =>
      el ← load (elems st.1) (Some e);
      st ← callback (Value el) e st;
      call_each callback es st
  end.

(** The elements [es] without the first one that holds a dead peer. *)
Fixpoint reap_first (s : Server) (now : Z) (es : list nat) : list nat :=
  match es with
  | [] => []
  | e :: es => if dead_elem s now e then es else e :: reap_first s now es
  end.

End Srv.

(** * Properties *)

(** ** Bytes and big-endian numbers *)

Lemma byte_val_range (b : byte) : 0 <= byte_val b < 256.
Proof.
  unfold byte_val. pose proof (Byte.to_N_bounded b) as H.
  split; [apply N2Z.is_nonneg|]. lia.
Qed.

Lemma byte_val_of (z : Z) : byte_val (byte_of z) = z mod 256.
Proof.
  unfold byte_of, byte_val.
  assert (Hr : 0 <= z mod 256 < 256) by (apply Z.mod_pos_bound; lia).
  destruct (Byte.of_N (Z.to_N (z mod 256))) as [b|] eqn:E.
  - apply Byte.to_of_N in E. simpl. rewrite E. lia.
  - apply Byte.of_N_None_iff in E. lia.
Qed.

Lemma length_be_bytes (w : nat) (n : Z) : length (be_bytes w n) = w.
Proof. induction w as [|w IH]; simpl; [reflexivity | now rewrite IH]. Qed.

Lemma big_endian_range (b : list byte) :
  0 <= big_endian b < 256 ^ Z.of_nat (length b).
Proof.
  induction b as [|x r IH]; simpl big_endian; [simpl; lia|].
  pose proof (byte_val_range x) as Hx.
  replace (Z.of_nat (length (x :: r))) with (Z.succ (Z.of_nat (length r)))
    by (simpl length; lia).
  rewrite Z.pow_succ_r by lia. nia.
Qed.

Lemma big_endian_be_bytes (w : nat) (n : Z) :
  big_endian (be_bytes w n) = n mod 256 ^ Z.of_nat w.
Proof.
  induction w as [|w IH].
  - simpl. now rewrite Z.mod_1_r.
  - cbn [be_bytes big_endian]. rewrite length_be_bytes, IH, byte_val_of.
    replace (Z.of_nat (S w)) with (Z.succ (Z.of_nat w)) by lia.
    rewrite Z.pow_succ_r by lia.
    assert (Hp : 0 < 256 ^ Z.of_nat w) by (apply Z.pow_pos_nonneg; lia).
    rewrite (Z.mul_comm 256), Z.rem_mul_r by lia. lia.
Qed.

(** ** Value accessors *)

Section ValueAccessors.

Import Ethutil.

(** Folding the bytes into a 64-bit accumulator gives the big-endian
    number modulo [2^64]. *)
Lemma ReadVarint_fold (b : list byte) (acc : Z) :
  0 <= acc < 2 ^ 64 ->
  fold_left (fun acc x => to_uint64 (acc * 256 + byte_val x)) b acc
  = (acc * 256 ^ Z.of_nat (length b) + big_endian b) mod 2 ^ 64.
Proof.
  revert acc. induction b as [|x r IH]; intros acc Hacc.
  - simpl. rewrite Z.mul_1_r, Z.add_0_r, Z.mod_small; lia.
  - cbn [fold_left big_endian]. rewrite IH by (apply Z.mod_pos_bound; lia).
    unfold to_uint64.
    replace (Z.of_nat (length (x :: r))) with (Z.succ (Z.of_nat (length r)))
      by (simpl length; lia).
    rewrite Z.pow_succ_r by lia.
    rewrite Zplus_mod, Zmult_mod, Z.mod_mod by lia.
    rewrite <- Zmult_mod, <- Zplus_mod. f_equal. ring.
Qed.

Lemma ReadVarint_big_endian (b : list byte) :
  (length b <= 8)%nat -> ReadVarint b = big_endian b.
Proof.
  intros Hlen. unfold ReadVarint. rewrite ReadVarint_fold by lia.
  rewrite Z.mul_0_l, Z.add_0_l. apply Z.mod_small.
  pose proof (big_endian_range b) as [H0 H1]. split; [exact H0|].
  eapply Z.lt_le_trans; [exact H1|].
  change (2 ^ 64) with (256 ^ 8). apply Z.pow_le_mono_r; lia.
Qed.

(** C4.  Indexing a sequence at a non-negative index at or past its
    length returns the nil value and does not panic; indexing it at a
    negative index panics. *)
Theorem Get_sequence_index (d : list iface) (idx : Z) :
  (Z.of_nat (length d) <= idx ->
     Get (NewValue (ISlice d)) idx = Ret (NewValue INil))
  /\ (idx < 0 ->
     Get (NewValue (ISlice d)) idx = Panic "negative idx for Value Get").
Proof.
  unfold Get; cbn [Val NewValue]. split; intros H.
  - destruct (Z.leb_spec (Z.of_nat (length d)) idx); [reflexivity | lia].
  - destruct (Z.leb_spec (Z.of_nat (length d)) idx); [lia|].
    destruct (Z.ltb_spec idx 0); [reflexivity | lia].
Qed.

(** A sequence of two items, indexed at 2 and at -1. *)
Lemma Get_sequence_index_witness :
  Get (NewValue (ISlice [IBytes [x01]; IBytes []])) 2 = Ret (NewValue INil)
  /\ Get (NewValue (ISlice [IBytes [x01]; IBytes []])) (-1)
     = Panic "negative idx for Value Get".
Proof.
  split.
  - apply (Get_sequence_index [IBytes [x01]; IBytes []] 2). simpl. lia.
  - apply (Get_sequence_index [IBytes [x01]; IBytes []] (-1)). lia.
Defined.

(** An index inside the sequence returns the element there. *)
Lemma Get_sequence_inside (d : list iface) (idx : Z) (x : iface) :
  0 <= idx -> d !! Z.to_nat idx = Some x ->
  Get (NewValue (ISlice d)) idx = Ret (NewValue x).
Proof.
  intros H0 Hx. unfold Get, index; cbn [Val NewValue].
  pose proof (lookup_lt_Some _ _ _ Hx) as Hlt.
  destruct (Z.leb_spec (Z.of_nat (length d)) idx); [lia|].
  destruct (Z.ltb_spec idx 0); [lia|].
  now rewrite Hx.
Qed.

(** C10.  On a value that holds no sequence, [Get] returns the nil value
    at every index, negative ones included, and does not panic. *)
Theorem Get_not_a_sequence (val : Value) (idx : Z) :
  Slice_reads (Val val) = false ->
  Get val idx = Ret (NewValue INil).
Proof.
  unfold Get. destruct (Val val); simpl; intros H; try reflexivity.
  discriminate H.
Qed.

(** A byte-string, indexed at -3. *)
Lemma Get_not_a_sequence_witness :
  Get (NewValue (IBytes [x01; x02])) (-3) = Ret (NewValue INil).
Proof.
  apply (Get_not_a_sequence (NewValue (IBytes [x01; x02])) (-3)).
  reflexivity.
Defined.

(** C5.  On a byte string of 1, 2, 4 or 8 bytes [Uint] returns the
    big-endian number the bytes denote, and a native unsigned integer of
    any of those widths that holds the same number gives the same result. *)
Theorem Uint_big_endian (b : list byte) :
  In (length b) [1; 2; 4; 8]%nat ->
  Uint (NewValue (IBytes b)) = Ret (big_endian b)
  /\ forall w : nat, In w [1; 2; 4; 8]%nat ->
       big_endian b < 256 ^ Z.of_nat w ->
       Uint (NewValue (native w (big_endian b))) = Uint (NewValue (IBytes b)).
Proof.
  intros Hlen.
  assert (Hb : ReadVarint b = big_endian b).
  { apply ReadVarint_big_endian. simpl in Hlen. lia. }
  unfold Uint at 1; cbn [Val NewValue]. rewrite Hb. split; [reflexivity|].
  intros w Hw Hfit. unfold Uint; cbn [Val NewValue]. rewrite Hb.
  pose proof (big_endian_range b) as [H0 _].
  assert (H64 : big_endian b mod 2 ^ 64 = big_endian b).
  { apply Z.mod_small. split; [exact H0|].
    eapply Z.lt_le_trans; [exact Hfit|].
    change (2 ^ 64) with (256 ^ 8). apply Z.pow_le_mono_r; [lia|].
    simpl in Hw. lia. }
  simpl in Hw.
  destruct Hw as [<-|[<-|[<-|[<-|[]]]]]; cbn [native]; unfold to_uint64;
    now rewrite ?H64.
Qed.

(** The two bytes 01 00 and the 32-bit integer 256. *)
Lemma Uint_big_endian_witness :
  Uint (NewValue (IBytes [x01; x00])) = Ret 256
  /\ Uint (NewValue (IUint32 256)) = Uint (NewValue (IBytes [x01; x00])).
Proof.
  destruct (Uint_big_endian [x01; x00]) as [H1 H2]; [simpl; lia|].
  split; [exact H1|].
  apply (H2 4%nat); [simpl; lia | reflexivity].
Defined.

(** C6.  An accessor called on a payload its type switch has no case for
    returns its zero value and does not panic. *)
Theorem accessor_mismatch_zero (val : Value) :
  (Uint_reads (Val val) = false -> Uint val = Ret 0)
  /\ (Byte_reads (Val val) = false -> Byte val = Ret 0)
  /\ (Str_reads (Val val) = false -> Str val = Ret EmptyString)
  /\ (Bytes_reads (Val val) = false -> Bytes val = Ret [])
  /\ (Slice_reads (Val val) = false -> Slice val = Ret []).
Proof.
  unfold Uint, Byte, Str, Bytes, Slice.
  destruct (Val val); simpl; repeat split; intros H;
    solve [reflexivity | discriminate H].
Qed.

(** [Uint] on a sequence and [Slice] on a byte-string. *)
Lemma accessor_mismatch_zero_witness :
  Uint (NewValue (ISlice [IBytes [x01]])) = Ret 0
  /\ Slice (NewValue (IBytes [x01])) = Ret [].
Proof.
  split.
  - apply (accessor_mismatch_zero (NewValue (ISlice [IBytes [x01]]))).
    reflexivity.
  - apply (accessor_mismatch_zero (NewValue (IBytes [x01]))). reflexivity.
Defined.

End ValueAccessors.

(** ** Sequences: indexing, slicing, appending *)

Section SequenceAccessors.

Import Ethutil.

(** X1.  An index inside a sequence returns the item at that index. *)
Theorem Get_in_range (d : list iface) (idx : Z) :
  0 <= idx < Z.of_nat (length d) ->
  exists x, d !! Z.to_nat idx = Some x
            /\ Get (NewValue (ISlice d)) idx = Ret (NewValue x).
Proof.
  intros [H0 H1].
  destruct (d !! Z.to_nat idx) as [x|] eqn:Hx.
  - exists x. split; [reflexivity|]. now apply Get_sequence_inside.
  - apply lookup_ge_None in Hx. lia.
Qed.

Lemma Get_in_range_witness :
  exists x, [IBytes [x01]; IUint8 7] !! Z.to_nat 1 = Some x
            /\ Get (NewValue (ISlice [IBytes [x01]; IUint8 7])) 1 = Ret (NewValue x).
Proof.
  apply (Get_in_range [IBytes [x01]; IUint8 7] 1). split; [lia | reflexivity].
Defined.

(** X2.  [Get] panics exactly when the value holds a sequence and the
    index is negative; it never runs into Go's own bounds check. *)
Theorem Get_panics_iff (val : Value) (idx : Z) :
  (exists msg, Get val idx = Panic msg)
  <-> Slice_reads (Val val) = true /\ idx < 0.
Proof.
  unfold Get, index. destruct (Val val) as [| | | | | | | | | |d|]; simpl;
    try (split; [intros [msg H]; discriminate H | intros [H _]; discriminate H]).
  destruct (Z.leb_spec (Z.of_nat (length d)) idx) as [Hle|Hlt].
  - split; [intros [msg H]; discriminate H | intros [_ H]; lia].
  - destruct (Z.ltb_spec idx 0) as [Hneg|Hpos].
    + split; [tauto | eauto].
    + destruct (d !! Z.to_nat idx) as [x|] eqn:Hx.
      * split; [intros [msg H]; discriminate H | intros [_ H]; lia].
      * apply lookup_ge_None in Hx. lia.
Qed.

(** X3.  [Type] on the value [Get] returns for a missing item panics: on a
    value that holds no sequence at every index, on a sequence at every
    index at or past its length. *)
Theorem Type_of_missing_item_panics (val : Value) (idx : Z) :
  Slice_reads (Val val) = false \/ Len val <= idx ->
  exists msg, (v ← Get val idx; Value_Type v) = Panic msg.
Proof.
  intros H. unfold Get, Len in *.
  destruct (Val val) as [| | | | | | |b| | |d|]; simpl in *;
    try (eexists; reflexivity).
  destruct H as [H|H]; [discriminate H|].
  destruct (Z.leb_spec (Z.of_nat (length d)) idx); [|lia].
  eexists; reflexivity.
Qed.

Lemma Type_of_missing_item_panics_witness :
  exists msg, (v ← Get (NewValue (ISlice [IBytes [x01]])) 1; Value_Type v) = Panic msg.
Proof.
  apply (Type_of_missing_item_panics (NewValue (ISlice [IBytes [x01]])) 1).
  right. unfold Len. cbn [Val NewValue length]. lia.
Defined.


(** Converting to [uint64] and back to [int64] restores a 64-bit signed
    number. *)
Lemma wrap_int64_to_uint64 (n : Z) :
  - 2 ^ 63 <= n < 2 ^ 63 -> wrap_int64 (to_uint64 n) = n.
Proof.
  intros Hn. unfold wrap_int64, to_uint64.
  rewrite Zplus_mod_idemp_l. 
  rewrite Z.mod_small by lia. lia.
Qed.

(** X4.  [BigInt] of a native [int] is that number, negative ones
    included: the detour through [Uint] and [int64] loses nothing. *)
Theorem BigInt_of_int (n : Z) :
  - 2 ^ 63 <= n < 2 ^ 63 ->
  BigInt (NewValue (IInt n)) = Ret n.
Proof.
  intros Hn. unfold BigInt, Uint. cbn [Val NewValue mbind outcome_bind obind].
  now rewrite wrap_int64_to_uint64.
Qed.

Lemma BigInt_of_int_witness : BigInt (NewValue (IInt (-5))) = Ret (-5).
Proof. apply (BigInt_of_int (-5)). lia. Defined.

(** X5.  [BigInt] of a native unsigned 64-bit number from [2^63] on is
    negative: the number less [2^64].  Below [2^63] it is the number. *)
Theorem BigInt_of_uint64 (n : Z) :
  0 <= n < 2 ^ 64 ->
  BigInt (NewValue (IUint64 n))
  = Ret (if n <? 2 ^ 63 then n else n - 2 ^ 64).
Proof.
  intros Hn. unfold BigInt, Uint. cbn [Val NewValue mbind outcome_bind obind].
  f_equal. unfold wrap_int64.
  destruct (Z.ltb_spec n (2 ^ 63)).
  - rewrite Z.mod_small by lia. lia.
  - replace (n + 2 ^ 63) with ((n - 2 ^ 63) + 1 * 2 ^ 64) by lia.
    rewrite Z.mod_add by lia. rewrite Z.mod_small by lia. lia.
Qed.

Lemma BigInt_of_uint64_witness :
  BigInt (NewValue (IUint64 (2 ^ 64 - 1))) = Ret (-1).
Proof. apply (BigInt_of_uint64 (2 ^ 64 - 1)). lia. Defined.


(** X6.  Indexing what [SliceFrom] returns is indexing the sequence that
    many items further on. *)
Theorem SliceFrom_Get (d : list iface) (from idx : Z) :
  0 <= from <= Z.of_nat (length d) -> 0 <= idx ->
  (v ← SliceFrom (NewValue (ISlice d)) from; Get v idx)
  = Get (NewValue (ISlice d)) (from + idx).
Proof.
  intros Hfrom Hidx. unfold SliceFrom, Slice.
  cbn [Val NewValue mbind outcome_bind obind].
  destruct (Z.ltb_spec from 0); [lia|].
  destruct (Z.ltb_spec (Z.of_nat (length d)) from); [lia|].
  cbn [orb mbind outcome_bind obind]. unfold Get, index.
  cbn [Val NewValue]. rewrite length_drop.
  destruct (Z.leb_spec (Z.of_nat (length d - Z.to_nat from)) idx) as [Hle|Hlt];
    destruct (Z.leb_spec (Z.of_nat (length d)) (from + idx)) as [Hle'|Hlt'];
    try lia; [reflexivity|].
  destruct (Z.ltb_spec idx 0); [lia|].
  destruct (Z.ltb_spec (from + idx) 0); [lia|].
  rewrite lookup_drop. now rewrite <- Z2Nat.inj_add by lia.
Qed.

Lemma SliceFrom_Get_witness :
  (v ← SliceFrom (NewValue (ISlice [IUint8 1; IUint8 2; IUint8 3])) 1; Get v 1)
  = Get (NewValue (ISlice [IUint8 1; IUint8 2; IUint8 3])) (1 + 1).
Proof.
  apply (SliceFrom_Get [IUint8 1; IUint8 2; IUint8 3] 1 1);
    [split; [lia | simpl; lia] | lia].
Defined.

(** X7.  [SliceFrom] panics exactly on a negative [from] and on a [from]
    past the number of items; a value that holds no sequence has no items,
    so on it every [from] but 0 panics. *)
Theorem SliceFrom_panics_iff (val : Value) (from : Z) :
  (exists msg, SliceFrom val from = Panic msg)
  <-> from < 0
      \/ match Val val with
         | ISlice d => Z.of_nat (length d) < from
         | _ => 0 < from
         end.
Proof.
  unfold SliceFrom, Slice.
  destruct (Val val) as [| | | | | | | | | |d|];
    cbn [mbind outcome_bind obind length Z.of_nat].
  all: destruct (Z.ltb_spec from 0) as [Hneg|Hpos]; cbn [orb];
    [split; [intros _; now left | intros _; eauto]|].
  all: match goal with
       | |- context [?n <? ?m] =>
           destruct (Z.ltb_spec n m) as [Hgt|Hle]
       end.
  all: split; [intros [msg H]; try discriminate H; now right
              | intros [H|H]; try lia; eauto].
Qed.

(** X8.  After [Append] the new item is the last one, the items before it
    are as they were, and the length is one more. *)
Theorem Append_Get (d : list iface) (v : iface) :
  exists val',
    Append (NewValue (ISlice d)) v = Ret val'
    /\ Len val' = Z.of_nat (length d) + 1
    /\ Get val' (Z.of_nat (length d)) = Ret (NewValue v)
    /\ forall idx, 0 <= idx < Z.of_nat (length d) ->
         Get val' idx = Get (NewValue (ISlice d)) idx.
Proof.
  eexists. split; [reflexivity|]. split; [|split].
  - unfold Len. cbn [Val]. rewrite length_app. simpl. lia.
  - apply Get_sequence_inside; [lia|]. rewrite Nat2Z.id.
    rewrite lookup_app_r by lia. now rewrite Nat.sub_diag.
  - intros idx Hidx.
    destruct (d !! Z.to_nat idx) as [x|] eqn:Hx.
    + rewrite (Get_sequence_inside d idx x) by (assumption || lia).
      change (mkValue (ISlice (d ++ [v]))) with (NewValue (ISlice (d ++ [v]))).
      apply Get_sequence_inside; [lia|]. rewrite lookup_app_l by lia. exact Hx.
    + apply lookup_ge_None in Hx. lia.
Qed.

(** X9.  [Append] to a value that holds no sequence discards what the
    value held: the value is then the sequence of the one new item. *)
Theorem Append_overwrites (val : Value) (v : iface) :
  Slice_reads (Val val) = false ->
  Append val v = Ret (NewValue (ISlice [v])).
Proof.
  unfold Append, Slice. destruct (Val val); simpl; intros H;
    solve [reflexivity | discriminate H].
Qed.

Lemma Append_overwrites_witness :
  Append (NewValue (IBytes [x01; x02])) (IUint8 3) = Ret (NewValue (ISlice [IUint8 3])).
Proof. apply (Append_overwrites (NewValue (IBytes [x01; x02])) (IUint8 3)). reflexivity. Defined.

Lemma append_all_slice (slice d : list iface) :
  append_all (NewValue (ISlice d)) slice = Ret (NewValue (ISlice (d ++ slice))).
Proof.
  revert d. induction slice as [|x slice IH]; intros d.
  - simpl. now rewrite app_nil_r.
  - cbn [append_all]. unfold Append, Slice.
    cbn [Val NewValue mbind outcome_bind obind].
    change (mkValue (ISlice (d ++ [x]))) with (NewValue (ISlice (d ++ [x]))).
    rewrite IH. now rewrite <- app_assoc.
Qed.

(** X10.  [NewSliceValue] of a sequence holds the same items in the same
    order, of a slice of strings the strings as items, and of anything
    else no item. *)
Theorem NewSliceValue_items (s : iface) :
  NewSliceValue s
  = Ret (NewValue (ISlice match s with
                          | ISlice slice => slice
                          | IStrings slice => map IString slice
                          | _ => []
                          end)).
Proof.
  unfold NewSliceValue, EmptyValue.
  destruct s; try reflexivity; now rewrite append_all_slice.
Qed.

End SequenceAccessors.

(** ** The fee table *)

Section FeeTable.

Import Tx.

Lemma big_Exp_pow2 (y : Z) : 0 < y -> big_Exp 2 y 0 = 2 ^ y.
Proof.
  intros Hy. unfold big_Exp. destruct (Z.leb_spec y 0); [lia | reflexivity].
Qed.

Lemma big_Div_pos (x y : Z) : 0 < y -> big_Div x y = x / y.
Proof.
  intros Hy. unfold big_Div. rewrite Z.sgn_pos, Z.abs_eq by lia. lia.
Qed.

Ltac fee_lookup :=
  repeat (rewrite lookup_insert_ne by discriminate); apply lookup_insert_eq.

(** C9.  Whatever the variables held before, after [InitFees] each fee
    variable holds its fixed expression over [2^64] and [2^80], and running
    [InitFees] again changes nothing. *)
Theorem InitFees_values (g : globals) :
  let g' := InitFees g in
  g' !! "StepFee"%string = Some (2 ^ 64 / 64)
  /\ g' !! "TxFee"%string = Some (2 ^ 64)
  /\ g' !! "ContractFee"%string = Some (2 ^ 64)
  /\ g' !! "MemFee"%string = Some (2 ^ 64 / 4)
  /\ g' !! "DataFee"%string = Some (2 ^ 64 / 16)
  /\ g' !! "CryptoFee"%string = Some (2 ^ 64 / 16)
  /\ g' !! "ExtroFee"%string = Some (2 ^ 64 / 16)
  /\ g' !! "Period1Reward"%string = Some (2 ^ 80 * 1024)
  /\ g' !! "Period2Reward"%string = Some (2 ^ 80 * 512)
  /\ g' !! "Period3Reward"%string = Some (2 ^ 80 * 256)
  /\ g' !! "Period4Reward"%string = Some (2 ^ 80 * 128)
  /\ InitFees g' = g'.
Proof.
  cbv zeta. unfold InitFees. cbv zeta.
  rewrite !big_Exp_pow2, !big_Div_pos by lia. unfold big_Mul.
  repeat split; try fee_lookup.
  apply map_eq. intros k.
  destruct (decide (In k fee_names)) as [Hin|Hout].
  - simpl in Hin.
    repeat (destruct Hin as [<-|Hin]; [etransitivity; [|symmetry]; fee_lookup|]).
    destruct Hin.
  - simpl in Hout. rewrite !lookup_insert_ne by tauto. reflexivity.
Qed.

End FeeTable.

(** ** Transactions *)

Section TransactionFacts.

Import Ethutil Tx.

Variable CompileInstr : string -> string.
Variable RlpEncode : iface -> string.
Variable Uitoa : Z -> string.
Variable sha256_Sum256 : list byte -> list byte.

(** C8.  Two transactions with the same sender, recipient, value, fee and
    instructions, whatever their other fields, have the same canonical
    encoding and the same derived address.  The encoding is that of the
    sequence (placeholder "0", sender, recipient, value, fee, instructions)
    in this order, and the address [NewTransaction] stores is the hex text
    of the first 19 bytes of the SHA-256 digest of the encoding. *)
Theorem transaction_encoding_deterministic
    (s : string) (r v f : Z) (d : list string)
    (m1 m2 : list Z) (sg1 sg2 a1 a2 : string) :
  let tx1 := mkTransaction s r v f d m1 sg1 a1 in
  let tx2 := mkTransaction s r v f d m2 sg2 a2 in
  MarshalRlp RlpEncode Uitoa tx1 = MarshalRlp RlpEncode Uitoa tx2
  /\ derive_addr RlpEncode Uitoa sha256_Sum256 tx1
     = derive_addr RlpEncode Uitoa sha256_Sum256 tx2
  /\ MarshalRlp RlpEncode Uitoa tx1
     = list_byte_of_string
         (RlpEncode (ISlice [IString "0"; IString s; IString (Uitoa r);
                             IString (Uitoa v); IString (Uitoa f);
                             IStrings d]))
  /\ (forall (to value : Z) (data : list string),
        let tx := NewTransaction CompileInstr RlpEncode Uitoa sha256_Sum256
                    to value data in
        addr tx = hex_EncodeToString
                    (take 19 (sha256_Sum256 (MarshalRlp RlpEncode Uitoa tx)))
        /\ sender tx = "1234567890"%string /\ recipient tx = to
        /\ Tx.value tx = value /\ fee tx = 0
        /\ Tx.data tx = map CompileInstr data).
Proof.
  cbv zeta. unfold derive_addr, MarshalRlp, NewTransaction, set_addr.
  cbn [sender recipient Tx.value fee Tx.data addr]. repeat split.
Qed.

End TransactionFacts.

(** ** The address of a transaction *)

Section TransactionAddress.

Import Ethutil Tx.

Lemma hex_digit_In (n : N) :
  In (hex_digit n) (list_ascii_of_string "0123456789abcdef").
Proof.
  unfold hex_digit.
  destruct (N.to_nat n) as [|[|[|[|[|[|[|[|[|[|[|[|[|[|[|[|k]]]]]]]]]]]]]]]];
    simpl; tauto.
Qed.

Lemma hex_EncodeToString_length (b : list byte) :
  String.length (hex_EncodeToString b) = (2 * length b)%nat.
Proof. induction b as [|x r IH]; [reflexivity|]. simpl. rewrite IH. lia. Qed.

Lemma hex_EncodeToString_digits (b : list byte) :
  Forall (fun c => In c (list_ascii_of_string "0123456789abcdef"))
    (list_ascii_of_string (hex_EncodeToString b)).
Proof.
  induction b as [|x r IH]; [constructor|].
  cbn [hex_EncodeToString list_ascii_of_string].
  constructor; [apply hex_digit_In|]. constructor; [apply hex_digit_In|]. exact IH.
Qed.

Variable CompileInstr : string -> string.
Variable RlpEncode : iface -> string.
Variable Uitoa : Z -> string.
Variable sha256_Sum256 : list byte -> list byte.

(** X11.  With a 32-byte digest, the address [NewTransaction] stores is 38
    lower-case hexadecimal digits: it is cut from 19 bytes of the digest,
    not from 20. *)
Theorem NewTransaction_addr_38_hex (to value : Z) (data : list string) :
  (forall b, length (sha256_Sum256 b) = 32%nat) ->
  let tx := NewTransaction CompileInstr RlpEncode Uitoa sha256_Sum256 to value data in
  String.length (addr tx) = 38%nat
  /\ Forall (fun c => In c (list_ascii_of_string "0123456789abcdef"))
       (list_ascii_of_string (addr tx)).
Proof.
  intros Hsum. cbv zeta. unfold NewTransaction, set_addr, derive_addr.
  cbn [addr]. split.
  - rewrite hex_EncodeToString_length, length_take, Hsum. reflexivity.
  - apply hex_EncodeToString_digits.
Qed.

End TransactionAddress.

(** A digest of 32 equal bytes. *)
Lemma NewTransaction_addr_38_hex_witness :
  let tx := Tx.NewTransaction (fun i => i) (fun _ => "x"%string) (fun _ => "0"%string)
              (fun b => replicate 32 (hd x00 b)) 1 2 ["PUSH"%string] in
  String.length (Tx.addr tx) = 38%nat
  /\ Forall (fun c => In c (list_ascii_of_string "0123456789abcdef"))
       (list_ascii_of_string (Tx.addr tx)).
Proof.
  apply (NewTransaction_addr_38_hex (fun i => i) (fun _ => "x"%string)
           (fun _ => "0"%string) (fun b => replicate 32 (hd x00 b)) 1 2 ["PUSH"%string]).
  intros b. apply length_replicate.
Defined.

(** ** The peer registry *)

Section Registry.

Import GoList Srv.

(** *** Walking a linked list *)

Lemma linked_load (h : heap) (r a : nat) (es : list nat) :
  linked h r a es -> exists el, h !! a = Some el /\ next el = Some (default r (head es)).
Proof.
  destruct es as [|e es]; simpl; intros [H _].
  all: destruct (h !! a) as [el|]; [|discriminate].
  all: exists el; split; [reflexivity|]; simpl in H; congruence.
Qed.

Lemma linked_head_ne (h : heap) (r a e : nat) (es : list nat) :
  linked h r a es -> head es = Some e -> e <> r.
Proof. destruct es; simpl; [discriminate|]. intros (_ & H & _) [= <-]. exact H. Qed.

(** On an element of the list, [Next] is the element after it, and [nil]
    on the last one. *)
Lemma Next_linked (h : heap) (r e : nat) (es : list nat) :
  elist <$> h !! e = Some (Some r) ->
  linked h r e es ->
  Next h (Some e) = Ret (head es).
Proof.
  intros Hl Hlink.
  destruct (linked_load _ _ _ _ Hlink) as (el & Hel & Hnext).
  unfold Next, load. rewrite Hel in Hl |- *. simpl in Hl |- *.
  injection Hl as Hl. rewrite Hl, Hnext.
  destruct (head es) as [e'|] eqn:Hhd; simpl.
  - pose proof (linked_head_ne _ _ _ _ _ Hlink Hhd).
    case_decide; [congruence | reflexivity].
  - case_decide; [reflexivity | congruence].
Qed.

Lemma Front_linked (h : heap) (l : List) (es : list nat) :
  linked h (root l) (root l) es ->
  Len l = Z.of_nat (length es) ->
  Front h l = Ret (head es).
Proof.
  intros Hlink Hlen. unfold Front, Len in *.
  destruct (linked_load _ _ _ _ Hlink) as (el & Hel & Hnext).
  destruct es as [|e es]; simpl in *.
  - rewrite Hlen. reflexivity.
  - destruct (Z.eqb_spec (len l) 0); [lia|].
    rewrite Hel. simpl. now rewrite Hnext.
Qed.

Lemma held_cons (h : heap) (e : nat) (es : list nat) (el : Element) :
  h !! e = Some el -> held h (e :: es) = Value el :: held h es.
Proof. intros H. unfold held. simpl. now rewrite H. Qed.

Lemma eachPeer_from_nil {A : Type}
    (callback : nat -> nat -> Server * A -> outcome (Server * A))
    (fuel : nat) (st : Server * A) :
  eachPeer_from fuel callback None st = Ret st.
Proof. destruct fuel; reflexivity. Qed.

(** One turn of the loop of [eachPeer]. *)
Lemma eachPeer_from_step {A : Type}
    (callback : nat -> nat -> Server * A -> outcome (Server * A))
    (fuel : nat) (a : nat) (st : Server * A) (el : Element) :
  elems st.1 !! a = Some el ->
  eachPeer_from (S fuel) callback (Some a) st
  = st' ← callback (Value el) a st;
    e ← Next (elems st'.1) (Some a);
    eachPeer_from fuel callback e st'.
Proof. intros Hel. cbn [eachPeer_from]. unfold load. now rewrite Hel. Qed.

(** *** Adding a peer *)

Lemma store_Some (h : heap) (a : nat) (f : Element -> Element) (el : Element) :
  h !! a = Some el -> store h (Some a) f = Ret (<[a := f el]> h).
Proof. intros H. unfold store. now rewrite H. Qed.

Lemma load_Some (h : heap) (a : nat) (el : Element) :
  h !! a = Some el -> load h (Some a) = Ret el.
Proof. intros H. unfold load. now rewrite H. Qed.

Ltac heap_step :=
  first
    [ rewrite lookup_insert_eq
    | rewrite lookup_insert_ne by congruence
    | progress cbn [mbind outcome_bind obind load store next prev elist Value
                    set_next set_prev set_elist root len fst snd] ].



Lemma PushBack_pushed (h : heap) (l : List) (v a : nat) (rel ael : Element) :
  h !! root l = Some rel -> prev rel = Some a -> is_Some (next rel) ->
  h !! a = Some ael -> next ael = Some (root l) ->
  exists h',
    PushBack h l v = Ret (h', mkList (root l) (len l + 1), Some (fresh (dom h)))
    /\ pushed h h' (root l) a (fresh (dom h)) v.
Proof.
  destruct l as [r k]. cbn [root len]. intros Hr Hprev [n Hn] Ha Hnext.
  assert (He : h !! fresh (dom h) = None) by (apply not_elem_of_dom, is_fresh).
  assert (Her : fresh (dom h) <> r) by congruence.
  assert (Hea : fresh (dom h) <> a) by congruence.
  unfold PushBack, lazyInit. cbn [root len].
  rewrite (load_Some _ _ _ Hr). cbn [mbind outcome_bind obind].
  rewrite Hn. cbn [mbind outcome_bind obind root].
  rewrite (load_Some _ _ _ Hr). cbn [mbind outcome_bind obind].
  generalize dependent (fresh (dom h)). intros e He Her Hea.
  unfold insert.
  destruct rel as [rn rp rl rv], ael as [an ap al av].
  cbn [next prev] in Hprev, Hn, Hnext. subst rn rp an.
  destruct (decide (a = r)) as [->|Har].
  - rewrite Hr in Ha. simplify_eq.
    repeat (first [rewrite Hr | heap_step]).
    eexists. split; [reflexivity|].
    split; [|intros x Hx; destruct (decide (x = r)) ..];
      repeat case_decide; subst; simplify_map_eq; try reflexivity; congruence.
  - repeat (first [rewrite Hr | rewrite Ha | heap_step]).
    eexists. split; [reflexivity|].
    split; [|intros x Hx; destruct (decide (x = r)); destruct (decide (x = a)) ..];
      repeat case_decide; subst; simplify_map_eq; try reflexivity; congruence.
Qed.

Lemma linked_not_root (h : heap) (r a : nat) (es : list nat) :
  linked h r a es -> r ∉ es.
Proof.
  revert a. induction es as [|e es IH]; intros a; simpl.
  - intros _. apply not_elem_of_nil.
  - intros (_ & Hne & _ & _ & Hl). apply not_elem_of_cons. split; [congruence|].
    exact (IH _ Hl).
Qed.

Lemma linked_allocated (h : heap) (r a : nat) (es : list nat) :
  linked h r a es -> forall x, x ∈ a :: es -> is_Some (h !! x).
Proof.
  revert a. induction es as [|e es IH]; intros a Hl x Hx.
  - apply list_elem_of_singleton in Hx as ->. destruct Hl as [Hl _].
    destruct (h !! a); [eauto | discriminate].
  - apply elem_of_cons in Hx as [->|Hx].
    + destruct Hl as [Hl _]. destruct (h !! a); [eauto | discriminate].
    + destruct Hl as (_ & _ & _ & _ & Hl). exact (IH _ Hl _ Hx).
Qed.

(** The last element of the list, or the sentinel. *)
Lemma linked_last (h : heap) (r a : nat) (es : list nat) :
  linked h r a es ->
  next <$> h !! default a (last es) = Some (Some r)
  /\ prev <$> h !! r = Some (Some (default a (last es))).
Proof.
  revert a. induction es as [|e es IH]; intros a; simpl; [tauto|].
  intros (_ & _ & _ & _ & Hl). specialize (IH _ Hl).
  rewrite last_cons. destruct (last es); exact IH.
Qed.

(** A heap that agrees with [h] on the fields a walk reads keeps the list
    linked. *)
Lemma linked_frame (h h' : heap) (r : nat) (es : list nat) :
  forall a,
    linked h r a es ->
    (forall x, x ∈ a :: es -> next <$> h' !! x = next <$> h !! x) ->
    (forall x, x ∈ es ++ [r] -> prev <$> h' !! x = prev <$> h !! x) ->
    (forall x, x ∈ es -> elist <$> h' !! x = elist <$> h !! x) ->
    linked h' r a es.
Proof.
  induction es as [|e es IH]; intros a Hl Hn Hp He; simpl in *.
  - destruct Hl as [H1 H2].
    rewrite (Hn a), (Hp r) by (apply list_elem_of_singleton; reflexivity).
    tauto.
  - destruct Hl as (H1 & H2 & H3 & H4 & Hl).
    rewrite (Hn a), (Hp e), (He e) by left. repeat split; try assumption.
    apply IH; [assumption|..].
    + intros x Hx. apply Hn. now right.
    + intros x Hx. apply Hp. now right.
    + intros x Hx. apply He. now right.
Qed.

Lemma last_elem_of (a : nat) (es : list nat) :
  es <> [] -> default a (last es) ∈ es.
Proof.
  intros Hne. destruct (last es) as [x|] eqn:E.
  - simpl. apply last_Some in E as [l' ->]. apply elem_of_app. right. left.
  - apply last_None in E. contradiction.
Qed.

Lemma linked_snoc (h h' : heap) (r e v : nat) (es : list nat) :
  forall a,
    linked h r a es ->
    a ∉ es -> NoDup es -> e <> a -> e ∉ es -> e <> r ->
    pushed h h' r (default a (last es)) e v ->
    linked h' r a (es ++ [e]).
Proof.
  induction es as [|e1 es IH]; intros a Hl Ha Hnd Hea Hee Her Hp.
  - simpl in *. destruct Hl as [H1 H2]. destruct Hp as [P1 P2 P3 P4 P5].
    rewrite (P2 a), (P3 r) by congruence. rewrite P1.
    rewrite !decide_True by reflexivity. simpl. tauto.
  - simpl in Hl. destruct Hl as (H1 & H2 & H3 & H4 & Hl).
    apply NoDup_cons in Hnd as [Hnd1 Hnd].
    apply not_elem_of_cons in Hee as [Hee1 Hee].
    assert (Hlast : default a (last (e1 :: es)) = default e1 (last es)).
    { rewrite last_cons. now destruct (last es). }
    rewrite Hlast in Hp.
    assert (Hin : default e1 (last es) ∈ e1 :: es).
    { destruct es as [|e2 es']; [left|]. right. now apply last_elem_of. }
    assert (Hne : a <> default e1 (last es)) by (intros ->; contradiction).
    apply not_elem_of_cons in Ha as [Ha1 Ha].
    cbn [app linked].
    rewrite (pushed_next _ _ _ _ _ _ Hp a) by congruence.
    rewrite (pushed_prev _ _ _ _ _ _ Hp e1) by congruence.
    rewrite (pushed_elist _ _ _ _ _ _ Hp e1) by congruence.
    rewrite !decide_False by congruence.
    repeat split; try assumption.
    apply IH; assumption.
Qed.

Lemma held_ext (h h' : heap) (es : list nat) :
  (forall x, x ∈ es -> Value <$> h' !! x = Value <$> h !! x) ->
  held h' es = held h es.
Proof.
  induction es as [|e es IH]; intros H; [reflexivity|].
  change (held h' (e :: es))
    with (match Value <$> h' !! e with
          | Some y => y :: held h' es
          | None => held h' es
          end).
  rewrite (H e) by left.
  rewrite IH; [reflexivity|]. intros x Hx. apply H. now right.
Qed.

Lemma held_app (h : heap) (es es' : list nat) :
  held h (es ++ es') = held h es ++ held h es'.
Proof. apply omap_app. Qed.

(** Pushing a newly allocated peer on the back of a registry gives a
    registry with one more element. *)
Lemma push_registry (s : Server) (es : list nat) (x : Peer) :
  registry s es ->
  let p := fresh (dom (peer_heap s)) in
  let e := fresh (dom (elems s)) in
  let l' := mkList (root (peers s)) (len (peers s) + 1) in
  exists h',
    PushBack (elems s) (peers s) p = Ret (h', l', Some e)
    /\ registry (mkServer l' h' (<[p := x]> (peer_heap s))) (es ++ [e])
    /\ held h' (es ++ [e]) = held (elems s) es ++ [p].
Proof.
  intros [Hlink Hnd Hlen Hpeers Halloc] p e l'.
  set (h := elems s) in *. set (r := root (peers s)) in *.
  destruct (linked_load _ _ _ _ Hlink) as (rel & Hrel & Hrn).
  destruct (linked_last _ _ _ _ Hlink) as [Hln Hlp].
  set (a := default r (last es)) in *.
  destruct (h !! a) as [ael|] eqn:Hael; [|discriminate].
  rewrite Hrel in Hlp. simpl in Hln, Hlp.
  injection Hln as Hln. injection Hlp as Hlp.
  destruct (PushBack_pushed h (peers s) p a rel ael) as (h' & Hrun & Hp);
    [exact Hrel | exact Hlp | rewrite Hrn; eauto | exact Hael | exact Hln |].
  fold r in Hrun, Hp. fold e in Hrun, Hp.
  assert (He : h !! e = None) by (apply not_elem_of_dom, is_fresh).
  assert (Her : e <> r) by congruence.
  assert (Hees : e ∉ es).
  { intros Hin. destruct (linked_allocated _ _ _ _ Hlink e) as [? ?];
      [now right | congruence]. }
  assert (Hheld : held h' (es ++ [e]) = held h es ++ [p]).
  { rewrite held_app. f_equal.
    - apply held_ext. intros y Hy. apply (pushed_Value _ _ _ _ _ _ Hp).
      intros ->. contradiction.
    - unfold held. simpl. now rewrite (pushed_new _ _ _ _ _ _ Hp). }
  assert (Hpf : peer_heap s !! p = None) by (apply not_elem_of_dom, is_fresh).
  exists h'. split; [exact Hrun|]. split; [|exact Hheld].
  split; cbn [elems peers peer_heap root Len len].
  - apply (linked_snoc h h' r e p es r); try assumption.
    exact (linked_not_root _ _ _ _ Hlink).
  - apply NoDup_app. split; [assumption|]. split.
    + intros y Hy ->%list_elem_of_singleton. contradiction.
    + apply NoDup_singleton.
  - unfold Len in *. subst l'. cbn [len]. rewrite Hlen, length_app. simpl. lia.
  - rewrite Hheld. apply NoDup_app. split; [assumption|]. split.
    + intros y Hy ->%list_elem_of_singleton.
      destruct (Halloc _ Hy) as [? ?]. congruence.
    + apply NoDup_singleton.
  - rewrite Hheld. intros q Hq. rewrite lookup_insert_is_Some'.
    apply elem_of_app in Hq as [Hq|Hq%list_elem_of_singleton]; [|now left].
    right. now apply Halloc.
Qed.

Lemma AddPeer_registry (s : Server) (es : list nat) (pong : Z) :
  registry s es ->
  exists s',
    AddPeer s pong = Ret s'
    /\ registry s' (es ++ [fresh (dom (elems s))])
    /\ held (elems s') (es ++ [fresh (dom (elems s))])
       = held (elems s) es ++ [fresh (dom (peer_heap s))]
    /\ peer_heap s'
       = <[fresh (dom (peer_heap s)) := NewPeer true pong]> (peer_heap s).
Proof.
  intros Hreg.
  destruct (push_registry s es (NewPeer true pong) Hreg) as (h' & Hrun & Hreg' & Hheld).
  unfold AddPeer. cbn [set_peer elems peers]. rewrite Hrun.
  eexists. split; [reflexivity|]. cbn [set_list fst snd elems peer_heap].
  split; [exact Hreg'|]. split; [exact Hheld | reflexivity].
Qed.

Lemma ConnectToPeer_registry (s : Server) (es : list nat) (pong : Z) :
  registry s es ->
  exists s',
    ConnectToPeer s pong = Ret s'
    /\ registry s' (es ++ [fresh (dom (elems s))])
    /\ held (elems s') (es ++ [fresh (dom (elems s))])
       = held (elems s) es ++ [fresh (dom (peer_heap s))]
    /\ peer_heap s'
       = <[fresh (dom (peer_heap s)) := NewPeer false pong]> (peer_heap s).
Proof.
  intros Hreg.
  destruct (push_registry s es (NewPeer false pong) Hreg) as (h' & Hrun & Hreg' & Hheld).
  unfold ConnectToPeer. cbn [set_peer elems peers]. rewrite Hrun.
  eexists. split; [reflexivity|]. cbn [set_list fst snd elems peer_heap].
  split; [exact Hreg'|]. split; [exact Hheld | reflexivity].
Qed.

Lemma NewServer_registry :
  exists s, NewServer = Ret s /\ registry s [] /\ peer_heap s = ∅.
Proof.
  eexists. split; [vm_compute; reflexivity|]. split; [|reflexivity].
  split.
  - vm_compute. split; reflexivity.
  - apply NoDup_nil_2.
  - reflexivity.
  - apply NoDup_nil_2.
  - intros p Hp. inversion Hp.
Qed.

(** *** Removing an element *)

Lemma Remove_removed (h : heap) (l : List) (e pa na : nat) (el pael nael : Element) :
  h !! e = Some el -> elist el = Some (root l) ->
  prev el = Some pa -> next el = Some na ->
  e <> pa -> e <> na ->
  h !! pa = Some pael -> h !! na = Some nael ->
  exists h',
    Remove h l (Some e) = Ret (h', mkList (root l) (len l - 1))
    /\ removed h h' pa na e.
Proof.
  destruct l as [r k]. cbn [root len].
  intros He Hl Hp Hn Hepa Hena Hpa Hna.
  unfold Remove, remove. cbn [root len].
  rewrite (load_Some _ _ _ He). cbn [mbind outcome_bind obind].
  rewrite decide_True by assumption.
  destruct el as [en ep el ev]. cbn [next prev elist] in *. subst en ep el.
  destruct (decide (pa = na)) as [->|Hpn].
  - rewrite Hpa in Hna. simplify_eq.
    repeat (first [rewrite He | rewrite Hpa | heap_step]).
    eexists. split; [reflexivity|].
    split; [|intros x Hx; destruct (decide (x = na)) ..
             |intros x; destruct (decide (x = na)); destruct (decide (x = e))];
      repeat case_decide; subst; simplify_map_eq; try reflexivity; congruence.
  - repeat (first [rewrite He | rewrite Hpa | rewrite Hna | heap_step]).
    eexists. split; [reflexivity|].
    split; [|intros x Hx; destruct (decide (x = na)); destruct (decide (x = pa)) ..
             |intros x; destruct (decide (x = na)); destruct (decide (x = pa));
              destruct (decide (x = e))];
      repeat case_decide; subst; simplify_map_eq; try reflexivity; congruence.
Qed.

Lemma last_cons_default (a e1 : nat) (es : list nat) :
  default a (last (e1 :: es)) = default e1 (last es).
Proof. rewrite last_cons. now destruct (last es). Qed.

Lemma last_cons_elem_of (e1 : nat) (es : list nat) :
  default e1 (last es) ∈ e1 :: es.
Proof. destruct es as [|e2 es']; [left|]. right. now apply last_elem_of. Qed.

(** The element [e] inside a linked list, its neighbours, and the rest of
    the list after it. *)
Lemma linked_split (h : heap) (r e : nat) (post : list nat) :
  forall pre a,
    linked h r a (pre ++ e :: post) ->
    e <> r
    /\ elist <$> h !! e = Some (Some r)
    /\ prev <$> h !! e = Some (Some (default a (last pre)))
    /\ next <$> h !! default a (last pre) = Some (Some e)
    /\ linked h r e post.
Proof.
  induction pre as [|e1 pre IH]; intros a Hl.
  - simpl in Hl. simpl. tauto.
  - cbn [app linked] in Hl. destruct Hl as (_ & _ & _ & _ & Hl).
    rewrite last_cons_default. exact (IH _ Hl).
Qed.

Lemma linked_remove (h h' : heap) (r e : nat) (post : list nat) :
  forall pre a,
    linked h r a (pre ++ e :: post) ->
    a ∉ pre ++ e :: post -> NoDup (pre ++ e :: post) ->
    removed h h' (default a (last pre)) (default r (head post)) e ->
    linked h' r a (pre ++ post).
Proof.
  induction pre as [|e1 pre IH]; intros a Hl Ha Hnd Hrm.
  - cbn [app] in *. simpl in Hl. destruct Hl as (H1 & H2 & H3 & H4 & Hl).
    apply not_elem_of_cons in Ha as [Hae Ha].
    apply NoDup_cons in Hnd as [Hepost Hnd].
    pose proof (linked_not_root _ _ _ _ Hl) as Hr.
    destruct post as [|e2 post]; simpl in Hrm.
    + simpl. rewrite (removed_next _ _ _ _ _ Hrm a) by congruence.
      rewrite (removed_prev _ _ _ _ _ Hrm r) by congruence.
      rewrite !decide_True by reflexivity. tauto.
    + simpl in Hl. destruct Hl as (G1 & G2 & G3 & G4 & Hl).
      apply not_elem_of_cons in Ha as [Hae2 Ha], Hepost as [Hee2 Hepost],
                                Hr as [Hre2 Hr].
      apply NoDup_cons in Hnd as [He2post Hnd].
      cbn [linked]. rewrite (removed_next _ _ _ _ _ Hrm a) by congruence.
      rewrite (removed_prev _ _ _ _ _ Hrm e2) by congruence.
      rewrite (removed_elist _ _ _ _ _ Hrm e2) by congruence.
      rewrite !decide_True by reflexivity.
      repeat split; try assumption.
      apply (linked_frame h h' r post e2 Hl).
      * intros x Hx. rewrite (removed_next _ _ _ _ _ Hrm x).
        -- rewrite decide_False; [reflexivity|]. intros ->.
           apply elem_of_cons in Hx as [->|Hx]; contradiction.
        -- intros ->. apply elem_of_cons in Hx as [->|Hx]; contradiction.
      * intros x Hx. rewrite (removed_prev _ _ _ _ _ Hrm x).
        -- rewrite decide_False; [reflexivity|]. intros ->.
           apply elem_of_app in Hx as [Hx|Hx%list_elem_of_singleton];
             [contradiction | congruence].
        -- intros ->.
           apply elem_of_app in Hx as [Hx|Hx%list_elem_of_singleton];
             [contradiction | congruence].
      * intros x Hx. apply (removed_elist _ _ _ _ _ Hrm). intros ->.
        contradiction.
  - cbn [app] in *. rewrite last_cons_default in Hrm.
    pose proof (linked_not_root _ _ _ _ Hl) as Hr.
    pose proof (last_cons_elem_of e1 pre) as Hin.
    simpl in Hl. destruct Hl as (H1 & H2 & H3 & H4 & Hl).
    apply NoDup_cons in Hnd as [He1 Hnd].
    assert (Hae1 : a <> e1) by (intros ->; apply Ha; left).
    assert (Hae : a <> e).
    { intros ->. apply Ha. right. apply elem_of_app. right. left. }
    assert (He1e : e1 <> e).
    { intros ->. apply He1. apply elem_of_app. right. left. }
    assert (Hapa : a <> default e1 (last pre)).
    { intros ->. apply Ha. apply elem_of_cons in Hin as [Hin|Hin].
      - rewrite Hin. left.
      - right. apply elem_of_app. now left. }
    assert (He1na : e1 <> default r (head post)).
    { destruct post as [|e2 post]; simpl; [congruence|]. intros ->.
      apply He1. apply elem_of_app. right. right. left. }
    cbn [linked]. rewrite (removed_next _ _ _ _ _ Hrm a) by congruence.
    rewrite (removed_prev _ _ _ _ _ Hrm e1) by congruence.
    rewrite (removed_elist _ _ _ _ _ Hrm e1) by congruence.
    rewrite !decide_False by congruence.
    repeat split; try assumption.
    apply IH; assumption.
Qed.

Lemma held_elem_of (h : heap) (es : list nat) (e : nat) (el : Element) :
  e ∈ es -> h !! e = Some el -> Value el ∈ held h es.
Proof.
  intros Hin Hel. unfold held. apply list_elem_of_omap.
  exists e. split; [assumption|]. now rewrite Hel.
Qed.

Lemma registry_peer_of (s : Server) (es : list nat) (e : nat) :
  registry s es -> e ∈ es -> is_Some (peer_of s e).
Proof.
  intros [Hlink _ _ _ Halloc] Hin.
  destruct (linked_allocated _ _ _ _ Hlink e) as [el Hel]; [now right|].
  unfold peer_of. rewrite Hel. simpl. apply Halloc.
  apply (held_elem_of _ _ e); assumption.
Qed.

(** *** Snapshot queries *)

Section Snapshots.

Variable want : bool.

Lemma collect_run (s : Server) (p e : nat) (out : list (option nat)) (k : nat) (x : Peer) :
  peer_heap s !! p = Some x -> (k < length out)%nat ->
  collect want p e (s, (out, k))
  = Ret (s, if Bool.eqb (inbound x) want
            then (<[k := Some p]> out, S k)
            else (out, k)).
Proof.
  intros Hx Hk. unfold collect, load_peer. rewrite Hx.
  cbn [mbind outcome_bind obind].
  destruct (Bool.eqb (inbound x) want); [|reflexivity].
  now rewrite decide_True.
Qed.

(** The walk of a snapshot query from an element [c] of the list to its
    end appends the peers of the wanted role, in list order, to the peers
    it has collected. *)
Lemma collect_walk (s : Server) (r : nat) (es : list nat) :
  forall (c : nat) (fuel : nat) (out : list (option nat)) (k : nat),
    (length es < fuel)%nat ->
    elist <$> elems s !! c = Some (Some r) ->
    linked (elems s) r c es ->
    (forall e, e ∈ c :: es -> is_Some (peer_of s e)) ->
    (k + S (length es) <= length out)%nat ->
    exists out',
      eachPeer_from fuel (collect want) (Some c) (s, (out, k))
      = Ret (s, (out', k + length (filter (has_role s want) (held (elems s) (c :: es)))))%nat
      /\ length out' = length out
      /\ take (k + length (filter (has_role s want) (held (elems s) (c :: es)))) out'
         = take k out ++ (Some <$> filter (has_role s want) (held (elems s) (c :: es))).
Proof.
  induction es as [|c' es IH]; intros c fuel out k Hfuel Hl Hlink Hsome Hroom.
  all: destruct fuel as [|fuel]; [simpl in Hfuel; lia|].
  all: pose proof (Next_linked _ _ _ _ Hl Hlink) as Hnext.
  all: destruct (Hsome c) as [x Hx]; [left|].
  all: unfold peer_of in Hx.
  all: destruct (elems s !! c) as [el|] eqn:Hel; [|discriminate].
  all: simpl in Hx.
  all: rewrite (held_cons _ _ _ _ Hel).
  all: rewrite (eachPeer_from_step _ _ c (s, (out, k)) el Hel).
  all: rewrite (collect_run s (Value el) c out k x Hx) by (simpl in Hroom; lia).
  all: cbn [mbind outcome_bind obind fst]; rewrite Hnext;
       cbn [mbind outcome_bind obind head].
  all: assert (Hrole : has_role s want (Value el) <-> Bool.eqb (inbound x) want = true)
         by (unfold has_role; rewrite Hx; simpl; rewrite Bool.eqb_true_iff;
             split; congruence).
  - rewrite eachPeer_from_nil. change (held (elems s) []) with (@nil nat).
    destruct (Bool.eqb (inbound x) want) eqn:Hw.
    + rewrite filter_cons_True by (apply Hrole; reflexivity).
      rewrite filter_nil. cbn [length fmap list_fmap].
      exists (<[k := Some (Value el)]> out).
      split; [do 3 f_equal; lia|]. split; [apply length_insert|].
      replace (k + 1)%nat with (S k) by lia.
      rewrite (take_S_r _ _ (Some (Value el)))
        by (apply list_lookup_insert_eq; simpl in Hroom; lia).
      now rewrite take_insert_ge by lia.
    + rewrite filter_cons_False by (rewrite Hrole; discriminate).
      rewrite filter_nil. cbn [length fmap list_fmap].
      exists out. rewrite Nat.add_0_r, app_nil_r. auto.
  - simpl in Hlink. destruct Hlink as (_ & _ & Hl' & _ & Hlink').
    assert (Hsome' : forall e, e ∈ c' :: es -> is_Some (peer_of s e))
      by (intros e He; apply Hsome; now right).
    destruct (Bool.eqb (inbound x) want) eqn:Hw.
    + rewrite filter_cons_True by (apply Hrole; reflexivity).
      destruct (IH c' fuel (<[k := Some (Value el)]> out) (S k))
        as (out' & Hrun & Hlen & Htake);
        [simpl in Hfuel; lia | assumption | assumption | assumption
        | rewrite length_insert; simpl in Hroom; lia |].
      exists out'. rewrite Hrun. cbn [length].
      replace (k + S (length (filter (has_role s want) (held (elems s) (c' :: es)))))%nat
        with (S k + length (filter (has_role s want) (held (elems s) (c' :: es))))%nat
        by lia.
      split; [reflexivity|]. split; [now rewrite Hlen, length_insert|].
      rewrite Htake.
      rewrite (take_S_r _ _ (Some (Value el)))
        by (apply list_lookup_insert_eq; simpl in Hroom; lia).
      rewrite take_insert_ge by lia. cbn [fmap list_fmap].
      now rewrite <- app_assoc.
    + rewrite filter_cons_False by (rewrite Hrole; discriminate).
      destruct (IH c' fuel out k) as (out' & Hrun & Hlen & Htake);
        [simpl in Hfuel; lia | assumption | assumption | assumption
        | simpl in Hroom; lia |].
      exists out'. rewrite Hrun. auto.
Qed.

End Snapshots.

Lemma snapshot_registry (want : bool) (s : Server) (es : list nat) :
  registry s es ->
  ('(_, (out, length)) ← eachPeer (collect want)
                           (s, (replicate (Z.to_nat (Len (peers s))) None, 0%nat));
   Ret (take length out))
  = Ret (Some <$> filter (has_role s want) (held (elems s) es)).
Proof.
  intros Hreg. pose proof Hreg as [Hlink Hnd Hlen Hpeers Halloc].
  unfold eachPeer. cbn [fst].
  rewrite (Front_linked _ _ _ Hlink Hlen). cbn [mbind outcome_bind obind].
  rewrite Hlen, Nat2Z.id.
  destruct es as [|c es].
  - cbn [head]. rewrite eachPeer_from_nil. reflexivity.
  - cbn [head]. cbn [linked] in Hlink.
    destruct Hlink as (_ & _ & Hlc & _ & Hlink).
    destruct (collect_walk want s (root (peers s)) es c (S (length (c :: es)))
                (replicate (length (c :: es)) None) 0%nat)
      as (out' & Hrun & Hlen' & Htake);
      [simpl; lia | assumption | assumption
      | intros e He; now apply (registry_peer_of _ _ _ Hreg)
      | rewrite length_replicate; simpl; lia |].
    rewrite Hrun. cbn [mbind outcome_bind obind]. simpl in Htake |- *.
    now rewrite Htake.
Qed.

(** [InboundPeers] and [OutboundPeers] on a registry: the inbound and the
    outbound peers, in registry order. *)
Theorem InboundPeers_registry (s : Server) (es : list nat) :
  registry s es ->
  InboundPeers s = Ret (Some <$> filter (has_role s true) (held (elems s) es)).
Proof. apply snapshot_registry. Qed.

Theorem OutboundPeers_registry (s : Server) (es : list nat) :
  registry s es ->
  OutboundPeers s = Ret (Some <$> filter (has_role s false) (held (elems s) es)).
Proof. apply snapshot_registry. Qed.

Lemma filter_roles (s : Server) (ps : list nat) :
  (forall p, p ∈ ps -> is_Some (peer_heap s !! p)) ->
  filter (has_role s true) ps ++ filter (has_role s false) ps ≡ₚ ps.
Proof.
  induction ps as [|p ps IH]; intros Halloc; [reflexivity|].
  assert (IH' := IH (fun q Hq => Halloc q (list_elem_of_further _ _ _ Hq))).
  destruct (Halloc p) as [x Hx]; [left|].
  destruct (inbound x) eqn:Hin.
  - rewrite filter_cons_True by (unfold has_role; rewrite Hx; simpl; congruence).
    rewrite (filter_cons_False (has_role s false))
      by (unfold has_role; rewrite Hx; simpl; congruence).
    simpl. now rewrite IH'.
  - rewrite filter_cons_False by (unfold has_role; rewrite Hx; simpl; congruence).
    rewrite (filter_cons_True (has_role s false))
      by (unfold has_role; rewrite Hx; simpl; congruence).
    rewrite <- Permutation_middle. now rewrite IH'.
Qed.

(** On a registry the two snapshot queries split the registered peers:
    no peer is in both, and together they are all the peers. *)
Theorem snapshots_partition (s : Server) (es : list nat) :
  registry s es ->
  exists ins outs : list nat,
    InboundPeers s = Ret (Some <$> ins)
    /\ OutboundPeers s = Ret (Some <$> outs)
    /\ ins ++ outs ≡ₚ held (elems s) es
    /\ forall p, p ∈ ins -> p ∉ outs.
Proof.
  intros Hreg.
  exists (filter (has_role s true) (held (elems s) es)),
         (filter (has_role s false) (held (elems s) es)).
  split; [now apply InboundPeers_registry|].
  split; [now apply OutboundPeers_registry|].
  split; [apply filter_roles, (reg_alloc _ _ Hreg)|].
  intros p [Hin _]%list_elem_of_filter [Hout _]%list_elem_of_filter.
  unfold has_role in *. congruence.
Qed.

(** *** Broadcast *)

Section BroadcastFacts.

Variable accepts : Peer -> bool.
Variable msg : Msg.

Lemma Broadcast_func_run (s : Server) (p e : nat) (x : Peer) :
  peer_heap s !! p = Some x ->
  Broadcast_func accepts msg p e (s, tt)
  = Ret (set_peer s p (QueueMessage accepts x msg), tt).
Proof. intros Hx. unfold Broadcast_func, load_peer. simpl. now rewrite Hx. Qed.

(** The walk of [Broadcast] from an element [e] of the list to its end
    hands [msg] to the peer of each element it passes, and leaves the list
    alone. *)
Lemma Broadcast_walk (r : nat) (es : list nat) :
  forall (e : nat) (fuel : nat) (s : Server),
    (length es < fuel)%nat ->
    elist <$> elems s !! e = Some (Some r) ->
    linked (elems s) r e es ->
    (forall p, p ∈ held (elems s) (e :: es) -> is_Some (peer_heap s !! p)) ->
    eachPeer_from fuel (Broadcast_func accepts msg) (Some e) (s, tt)
    = Ret (mkServer (peers s) (elems s)
             (deliver accepts msg (peer_heap s) (held (elems s) (e :: es))), tt).
Proof.
  induction es as [|e' es IH]; intros e fuel s Hfuel Hl Hlink Halloc.
  all: destruct fuel as [|fuel]; [simpl in Hfuel; lia|].
  all: pose proof (Next_linked _ _ _ _ Hl Hlink) as Hnext.
  all: destruct (elems s !! e) as [el|] eqn:Hel; [|discriminate].
  all: rewrite (held_cons _ _ _ _ Hel) in Halloc |- *.
  all: destruct (Halloc (Value el)) as [x Hx]; [left|].
  all: rewrite (eachPeer_from_step _ fuel e (s, tt) el Hel).
  all: rewrite (Broadcast_func_run _ _ _ _ Hx).
  all: cbn [mbind outcome_bind obind fst set_peer elems].
  all: rewrite Hnext; cbn [mbind outcome_bind obind head].
  - rewrite eachPeer_from_nil. unfold held, deliver, set_peer. simpl.
    now rewrite Hx.
  - simpl in Hlink. destruct Hlink as (_ & Hne & Hl' & _ & Hlink').
    assert (Hfuel' : (length es < fuel)%nat) by (simpl in Hfuel; lia).
    rewrite (IH e' fuel (set_peer s (Value el) (QueueMessage accepts x msg))
               Hfuel' Hl' Hlink').
    + unfold set_peer, deliver. simpl. now rewrite Hx.
    + intros p Hp. unfold set_peer. cbn [peer_heap].
      rewrite lookup_insert_is_Some'. right. apply Halloc. now right.
Qed.

(** What [deliver] leaves at an address: the peers of the list got the
    message once, the others are as they were. *)
Lemma deliver_lookup (ps : list nat) :
  forall (ph : gmap nat Peer) (p : nat),
    NoDup ps ->
    deliver accepts msg ph ps !! p
    = if decide (p ∈ ps)
      then (fun x => QueueMessage accepts x msg) <$> ph !! p
      else ph !! p.
Proof.
  induction ps as [|q ps IH]; intros ph p Hnd.
  - rewrite decide_False by apply not_elem_of_nil. reflexivity.
  - apply NoDup_cons in Hnd as [Hq Hnd].
    change (deliver accepts msg ph (q :: ps))
      with (deliver accepts msg
              (match ph !! q with
               | Some x => <[q := QueueMessage accepts x msg]> ph
               | None => ph
               end) ps).
    rewrite IH by assumption.
    destruct (decide (p = q)) as [->|Hpq].
    + rewrite (decide_False (P := q ∈ ps)) by assumption.
      rewrite (decide_True (P := q ∈ q :: ps)) by left.
      destruct (ph !! q) as [x|] eqn:Hx.
      * now rewrite lookup_insert_eq.
      * now rewrite Hx.
    + assert (Hstep : (match ph !! q with
                       | Some x => <[q := QueueMessage accepts x msg]> ph
                       | None => ph
                       end) !! p = ph !! p).
      { destruct (ph !! q); [now rewrite lookup_insert_ne|reflexivity]. }
      rewrite Hstep.
      destruct (decide (p ∈ ps)) as [Hin|Hout].
      * rewrite (decide_True (P := p ∈ q :: ps)) by now right. reflexivity.
      * rewrite (decide_False (P := p ∈ q :: ps)); [reflexivity|].
        intros [?|?]%elem_of_cons; contradiction.
Qed.

End BroadcastFacts.

(** [Broadcast] on a registry walks the whole list. *)
Lemma Broadcast_registry (accepts : Peer -> bool) (s : Server)
    (es : list nat) (msgType : string) (data : list byte) :
  registry s es ->
  Broadcast accepts s msgType data
  = Ret (mkServer (peers s) (elems s)
           (deliver accepts (NewMessage msgType data) (peer_heap s)
              (held (elems s) es))).
Proof.
  intros [Hlink Hnd Hlen Hpeers Halloc].
  unfold Broadcast, eachPeer. cbn [fst].
  rewrite (Front_linked _ _ _ Hlink Hlen). cbn [mbind outcome_bind obind].
  destruct es as [|e es'].
  - rewrite eachPeer_from_nil. destruct s; reflexivity.
  - simpl in Hlink. destruct Hlink as (_ & _ & Hl & _ & Hlink).
    cbn [head].
    rewrite (Broadcast_walk accepts (NewMessage msgType data) (root (peers s)) es').
    + reflexivity.
    + rewrite Hlen. simpl length. lia.
    + exact Hl.
    + exact Hlink.
    + exact Halloc.
Qed.

(** [Broadcast] keeps a registry a registry. *)
Lemma Broadcast_keeps_registry (accepts : Peer -> bool) (s : Server)
    (es : list nat) (msgType : string) (data : list byte) :
  registry s es ->
  exists s', Broadcast accepts s msgType data = Ret s' /\ registry s' es.
Proof.
  intros Hreg. rewrite (Broadcast_registry accepts s es msgType data Hreg).
  eexists. split; [reflexivity|].
  destruct Hreg as [H1 H2 H3 H4 H5]. split; cbn [peers elems peer_heap];
    try assumption.
  intros q Hq. rewrite deliver_lookup, decide_True by assumption.
  destruct (H5 q Hq) as [y Hy]. rewrite Hy. simpl. eauto.
Qed.

(** C7.  On a registry, [Broadcast] returns, leaves the list as it is,
    and hands the message of type [msgType] with payload [data] to every
    registered peer exactly once and to no other peer: a peer that takes
    the message has it appended to its send queue, and whether one peer
    takes it has no effect on what the other peers get. *)
Theorem Broadcast_enqueues_once (accepts : Peer -> bool) (s : Server)
    (es : list nat) (msgType : string) (data : list byte) :
  registry s es ->
  exists s',
    Broadcast accepts s msgType data = Ret s'
    /\ peers s' = peers s /\ elems s' = elems s
    /\ (forall p,
          peer_heap s' !! p
          = if decide (p ∈ held (elems s) es)
            then (fun x => QueueMessage accepts x (NewMessage msgType data))
                   <$> peer_heap s !! p
            else peer_heap s !! p)
    /\ (forall p x,
          p ∈ held (elems s) es -> peer_heap s !! p = Some x ->
          accepts x = true ->
          outputQueue <$> peer_heap s' !! p
          = Some (outputQueue x ++ [NewMessage msgType data])).
Proof.
  intros Hreg. pose proof (reg_nodup _ _ Hreg) as Hpeers.
  set (msg := NewMessage msgType data).
  eexists. split; [exact (Broadcast_registry accepts s es msgType data Hreg)|].
  cbn [peers elems peer_heap].
  split; [reflexivity|]. split; [reflexivity|].
  assert (Hlook := fun p => deliver_lookup accepts msg (held (elems s) es)
                              (peer_heap s) p Hpeers).
  split; [exact Hlook|].
  intros p x Hp Hx Hacc. rewrite Hlook, decide_True by assumption.
  rewrite Hx. unfold QueueMessage. simpl. now rewrite Hacc.
Qed.

(** The three elements of [three_inbound], in list order. *)
Lemma three_inbound_registry : registry three_inbound [1; 2; 3]%nat.
Proof.
  split.
  - vm_compute. repeat split; discriminate.
  - apply NoDup_ListNoDup. repeat constructor; simpl; lia.
  - reflexivity.
  - apply NoDup_ListNoDup. vm_compute. repeat constructor; simpl; lia.
  - apply Forall_forall. vm_compute. repeat constructor; eexists; reflexivity.
Qed.

(** [Broadcast("ping", []byte{1})] on the registry of three inbound
    peers, each of which takes the message. *)
Lemma Broadcast_enqueues_once_witness :
  exists s',
    Broadcast (fun _ => true) three_inbound "ping" [x01] = Ret s'
    /\ peers s' = peers three_inbound /\ elems s' = elems three_inbound
    /\ (forall p,
          peer_heap s' !! p
          = if decide (p ∈ held (elems three_inbound) [1; 2; 3]%nat)
            then (fun x => QueueMessage (fun _ => true) x (NewMessage "ping" [x01]))
                   <$> peer_heap three_inbound !! p
            else peer_heap three_inbound !! p)
    /\ (forall p x,
          p ∈ held (elems three_inbound) [1; 2; 3]%nat ->
          peer_heap three_inbound !! p = Some x ->
          (fun _ : Peer => true) x = true ->
          outputQueue <$> peer_heap s' !! p
          = Some (outputQueue x ++ [NewMessage "ping" [x01]])).
Proof.
  apply (Broadcast_enqueues_once (fun _ => true) three_inbound [1; 2; 3]%nat
           "ping" [x01]).
  exact three_inbound_registry.
Defined.

(** The scenario of section 8: after [Broadcast("ping", []byte{1})] each of
    the three queues holds the one message. *)
Example Broadcast_three_inbound :
  (s ← Broadcast (fun _ => true) three_inbound "ping" [x01];
   Ret (map (fun p => outputQueue <$> peer_heap s !! p) [0; 1; 2]%nat))
  = Ret (replicate 3 (Some [NewMessage "ping" [x01]])).
Proof. vm_compute. reflexivity. Qed.

(** *** The dead-peer test *)

(** What the test of [ReapDeadPeers] decides: the bound it compares the
    seconds of silence with is the nanosecond count of five minutes. *)
Lemma dead_iff (p : Peer) (now : Z) :
  dead p now = true
  <-> disconnect p = 1
      \/ (inbound p = true /\ wrap_int64 (now - lastPong p) > 300000000000).
Proof.
  unfold dead. change (wrap_int64 (5 * time_Minute)) with 300000000000.
  rewrite orb_true_iff, andb_true_iff, Z.eqb_eq, Z.gtb_gt. reflexivity.
Qed.

(** X12.  The timeout never makes an outbound peer dead: whatever the
    clock reads, [ReapDeadPeers] takes an outbound peer for dead exactly
    when its disconnect flag is 1. *)
Lemma dead_outbound (p : Peer) (now : Z) :
  inbound p = false -> dead p now = bool_decide (disconnect p = 1).
Proof.
  intros Hout. unfold dead. rewrite Hout, orb_false_r.
  destruct (Z.eqb_spec (disconnect p) 1).
  - now rewrite bool_decide_eq_true_2.
  - now rewrite bool_decide_eq_false_2.
Qed.

(** An outbound peer that was last heard of at second 0, at second [2^40]. *)
Lemma dead_outbound_witness :
  dead (mkPeer false 0 0 []) (2 ^ 40) = bool_decide (0 = 1).
Proof. apply (dead_outbound (mkPeer false 0 0 []) (2 ^ 40)). reflexivity. Defined.

(** An inbound peer that is silent for more than five minutes and at most
    [300000000000] seconds is dead by the rule of the spec and not dead by
    the test of the code. *)
Lemma dead_silent_inbound (p : Peer) (now : Z) :
  inbound p = true -> disconnect p <> 1 ->
  300 < now - lastPong p <= 300000000000 ->
  dead_by_spec p now = true /\ dead p now = false.
Proof.
  intros Hin Hflag Hsilent. split.
  - unfold dead_by_spec. rewrite Hin. simpl.
    apply orb_true_iff. right. apply Z.gtb_gt. lia.
  - apply not_true_is_false. rewrite dead_iff. intros [H|[_ H]]; [lia|].
    unfold wrap_int64 in H. rewrite Z.mod_small in H by lia. lia.
Qed.

(** C2.  An inbound peer whose disconnect flag is clear and whose last
    liveness update is 301 seconds old is dead by the rule of the spec,
    and [ReapDeadPeers] does not take it for dead. *)
Theorem dead_misses_five_minutes :
  let p := mkPeer true 0 1000 [] in
  dead_by_spec p 1301 = true /\ dead p 1301 = false.
Proof. split; reflexivity. Qed.

(** *** Reaping *)

Section Reaping.

Variable now : Z.

Lemma ReapDeadPeers_func_alive (s : Server) (e : nat) (el : Element) (x : Peer) :
  elems s !! e = Some el -> peer_of s e = Some x -> dead x now = false ->
  ReapDeadPeers_func now (Value el) e (s, tt) = Ret (s, tt).
Proof.
  intros Hel Hx Hd. unfold peer_of in Hx. rewrite Hel in Hx. simpl in Hx.
  unfold ReapDeadPeers_func, load_peer. cbn [fst]. rewrite Hx.
  cbn [mbind outcome_bind obind]. now rewrite Hd.
Qed.

(** The walk passes over elements that hold live peers and changes
    nothing. *)
Lemma reap_skip (s : Server) (r : nat) (rest : list nat) :
  forall (pre : list nat) (c : nat) (fuel : nat),
    elist <$> elems s !! c = Some (Some r) ->
    linked (elems s) r c (pre ++ rest) ->
    (forall e, e ∈ c :: pre -> is_Some (peer_of s e)) ->
    (forall e, e ∈ c :: pre -> dead_elem s now e = false) ->
    eachPeer_from (S (length pre) + fuel) (ReapDeadPeers_func now) (Some c) (s, tt)
    = eachPeer_from fuel (ReapDeadPeers_func now) (head rest) (s, tt).
Proof.
  induction pre as [|c' pre IH]; intros c fuel Hl Hlink Hsome Halive.
  all: pose proof (Next_linked _ _ _ _ Hl Hlink) as Hnext.
  all: destruct (elems s !! c) as [el|] eqn:Hel; [|discriminate].
  all: destruct (Hsome c) as [x Hx]; [left|].
  all: pose proof (Halive c ltac:(left)) as Hd; unfold dead_elem in Hd;
       rewrite Hx in Hd.
  all: cbn [length Nat.add].
  all: rewrite (eachPeer_from_step _ _ c (s, tt) el Hel).
  all: rewrite (ReapDeadPeers_func_alive s c el x Hel Hx Hd).
  all: cbn [mbind outcome_bind obind fst]; rewrite Hnext;
       cbn [mbind outcome_bind obind].
  - reflexivity.
  - cbn [app head]. cbn [app linked] in Hlink.
    destruct Hlink as (_ & _ & Hl' & _ & Hlink').
    apply (IH c' fuel Hl' Hlink').
    + intros e He. apply Hsome. now right.
    + intros e He. apply Halive. now right.
Qed.

Lemma NoDup_app_remove (pre post : list nat) (e : nat) :
  NoDup (pre ++ e :: post) ->
  NoDup (pre ++ post) /\ (e ∉ pre) /\ (e ∉ post).
Proof.
  intros H. apply NoDup_app in H as (H1 & H2 & H3).
  apply NoDup_cons in H3 as [H3 H4]. split; [|split].
  - apply NoDup_app. split; [assumption|]. split; [|assumption].
    intros x Hx Hx'. apply (H2 x Hx). now right.
  - intros Hx. apply (H2 e Hx). left.
  - assumption.
Qed.

(** On an element that holds a dead peer the walk removes the element and
    ends: [Next] of the removed element is nil. *)
Lemma reap_at_dead (s : Server) (pre post : list nat) (e : nat) (fuel : nat) :
  registry s (pre ++ e :: post) ->
  dead_elem s now e = true ->
  exists s',
    eachPeer_from (S fuel) (ReapDeadPeers_func now) (Some e) (s, tt) = Ret (s', tt)
    /\ registry s' (pre ++ post)
    /\ peer_heap s' = peer_heap s
    /\ (forall x, Value <$> elems s' !! x = Value <$> elems s !! x)
    /\ Next (elems s') (Some e) = Ret None.
Proof.
  intros Hreg Hdead. pose proof Hreg as [Hlink Hnd Hlen Hpeers Halloc].
  set (h := elems s) in *. set (r := root (peers s)) in *.
  destruct (linked_split _ _ _ _ _ _ Hlink) as (Her & Hel & Hep & Hpn & Hlpost).
  destruct (linked_load _ _ _ _ Hlpost) as (el & Hhe & Hen).
  rewrite Hhe in Hel, Hep. simpl in Hel, Hep.
  injection Hel as Hel. injection Hep as Hep.
  set (pa := default r (last pre)) in *. set (na := default r (head post)) in *.
  destruct (NoDup_app_remove _ _ _ Hnd) as (Hnd' & Hepre & Hepost).
  pose proof (linked_not_root _ _ _ _ Hlink) as Hr.
  assert (Hpa_in : pa ∈ r :: pre).
  { subst pa. destruct pre as [|e1 pre]; [left|]. right.
    rewrite last_cons_default. apply last_cons_elem_of. }
  assert (Hna_in : na ∈ post ++ [r]).
  { subst na. destruct post as [|e2 post]; simpl; [left|left]. }
  assert (Hepa : e <> pa).
  { intros <-. apply elem_of_cons in Hpa_in as [?|?]; [congruence | contradiction]. }
  assert (Hena : e <> na).
  { intros <-. apply elem_of_app in Hna_in as [?|?%list_elem_of_singleton];
      [contradiction | congruence]. }
  destruct (linked_allocated _ _ _ _ Hlink pa) as [pael Hpael].
  { apply elem_of_cons in Hpa_in as [->|?]; [left|]. right.
    apply elem_of_app. now left. }
  destruct (linked_allocated _ _ _ _ Hlink na) as [nael Hnael].
  { apply elem_of_app in Hna_in as [?|Hna_r%list_elem_of_singleton];
      [|rewrite Hna_r; left].
    right. apply elem_of_app. right. now right. }
  destruct (Remove_removed h (peers s) e pa na el pael nael) as (h' & Hrun & Hrm);
    try assumption.
  unfold dead_elem, peer_of in Hdead. fold h in Hdead. rewrite Hhe in Hdead.
  simpl in Hdead. destruct (peer_heap s !! Value el) as [x|] eqn:Hx; [|discriminate].
  exists (set_list s (h', mkList r (len (peers s) - 1))).
  split; [|split; [|split; [reflexivity|split]]].
  - rewrite (eachPeer_from_step _ _ e (s, tt) el Hhe).
    unfold ReapDeadPeers_func, load_peer. cbn [fst]. rewrite Hx.
    cbn [mbind outcome_bind obind]. rewrite Hdead. fold h. rewrite Hrun.
    cbn [mbind outcome_bind obind fst set_list elems snd].
    unfold Next, load. rewrite (removed_self _ _ _ _ _ Hrm), Hhe. simpl.
    now rewrite eachPeer_from_nil.
  - assert (Hheld : forall es', held h' es' = held h es').
    { intros es'. apply held_ext. intros y _. apply (removed_Value _ _ _ _ _ Hrm). }
    split; cbn [set_list elems peers peer_heap fst snd root Len len].
    + apply (linked_remove h h' r e post pre r Hlink Hr Hnd Hrm).
    + exact Hnd'.
    + unfold Len in Hlen. rewrite Hlen, !length_app. simpl. lia.
    + rewrite Hheld. rewrite held_app in Hpeers |- *.
      change (e :: post) with ([e] ++ post) in Hpeers.
      rewrite held_app in Hpeers.
      apply NoDup_app in Hpeers as (P1 & P2 & P3).
      apply NoDup_app in P3 as (P3 & P4 & P5).
      apply NoDup_app. split; [assumption|]. split; [|assumption].
      intros y Hy Hy'. apply (P2 y Hy). apply elem_of_app. now right.
    + intros p Hp. apply Halloc. rewrite Hheld in Hp.
      rewrite held_app in Hp |- *. change (e :: post) with ([e] ++ post).
      rewrite held_app. apply elem_of_app in Hp as [Hp|Hp]; apply elem_of_app;
        [now left|]. right. apply elem_of_app. now right.
  - intros y. apply (removed_Value _ _ _ _ _ Hrm).
  - cbn [set_list elems fst]. unfold Next, load.
    rewrite (removed_self _ _ _ _ _ Hrm), Hhe. reflexivity.
Qed.

(** One pass over a registry in which the first dead peer is held by [e]:
    [e] is removed, every other element stays, and no peer changes. *)
Theorem ReapDeadPeers_pass_first_dead (s : Server) (pre post : list nat) (e : nat) :
  registry s (pre ++ e :: post) ->
  (forall c, c ∈ pre -> dead_elem s now c = false) ->
  dead_elem s now e = true ->
  exists s',
    ReapDeadPeers_pass s now = Ret s'
    /\ registry s' (pre ++ post)
    /\ peer_heap s' = peer_heap s
    /\ (forall x, Value <$> elems s' !! x = Value <$> elems s !! x).
Proof.
  intros Hreg Halive Hdead. pose proof Hreg as [Hlink Hnd Hlen Hpeers Halloc].
  unfold ReapDeadPeers_pass, eachPeer. cbn [fst].
  rewrite (Front_linked _ _ _ Hlink Hlen). cbn [mbind outcome_bind obind].
  rewrite Hlen, Nat2Z.id.
  destruct pre as [|c pre].
  - cbn [app head length].
    destruct (reap_at_dead s [] post e (S (length post)) Hreg Hdead)
      as (s' & Hrun & H1 & H2 & H3 & _).
    rewrite Hrun. cbn [mbind outcome_bind obind fst]. eauto.
  - cbn [app head].
    destruct (reap_at_dead s (c :: pre) post e (S (length post)) Hreg Hdead)
      as (s' & Hrun & H1 & H2 & H3 & _).
    cbn [app linked] in Hlink. destruct Hlink as (_ & _ & Hlc & _ & Hlink).
    replace (S (length (c :: pre ++ e :: post)))
      with (S (length pre) + S (S (length post)))%nat
      by (simpl; rewrite length_app; simpl; lia).
    rewrite (reap_skip s (root (peers s)) (e :: post) pre c _ Hlc Hlink).
    + cbn [head]. rewrite Hrun. cbn [mbind outcome_bind obind fst]. eauto.
    + intros x Hx. apply (registry_peer_of _ _ _ Hreg).
      change (c :: pre ++ e :: post) with ((c :: pre) ++ e :: post).
      apply elem_of_app. now left.
    + exact Halive.
Qed.

(** One pass over a registry with no dead peer changes nothing. *)
Theorem ReapDeadPeers_pass_none_dead (s : Server) (es : list nat) :
  registry s es ->
  (forall c, c ∈ es -> dead_elem s now c = false) ->
  ReapDeadPeers_pass s now = Ret s.
Proof.
  intros Hreg Halive. pose proof Hreg as [Hlink Hnd Hlen Hpeers Halloc].
  unfold ReapDeadPeers_pass, eachPeer. cbn [fst].
  rewrite (Front_linked _ _ _ Hlink Hlen). cbn [mbind outcome_bind obind].
  rewrite Hlen, Nat2Z.id.
  destruct es as [|c es].
  - cbn [head]. now rewrite eachPeer_from_nil.
  - cbn [head]. cbn [linked] in Hlink.
    destruct Hlink as (_ & _ & Hlc & _ & Hlink).
    replace (S (length (c :: es))) with (S (length es) + 1)%nat by (simpl; lia).
    rewrite <- (app_nil_r es) in Hlink.
    rewrite (reap_skip s (root (peers s)) [] es c _ Hlc Hlink).
    + reflexivity.
    + intros x Hx. now apply (registry_peer_of _ _ _ Hreg).
    + exact Halive.
Qed.

Lemma peer_of_eq (s s' : Server) (e : nat) :
  peer_heap s' = peer_heap s ->
  Value <$> elems s' !! e = Value <$> elems s !! e ->
  peer_of s' e = peer_of s e.
Proof.
  intros Hph Hv. unfold peer_of. rewrite Hph.
  destruct (elems s' !! e), (elems s !! e); simpl in *; congruence.
Qed.

(** A dead peer behind the first dead peer outlives the pass: it is still
    registered, and still dead. *)
Corollary ReapDeadPeers_pass_keeps_later_dead
    (s : Server) (pre post : list nat) (e d : nat) :
  registry s (pre ++ e :: post) ->
  (forall c, c ∈ pre -> dead_elem s now c = false) ->
  dead_elem s now e = true ->
  d ∈ post -> dead_elem s now d = true ->
  exists s',
    ReapDeadPeers_pass s now = Ret s'
    /\ registry s' (pre ++ post)
    /\ d ∈ pre ++ post
    /\ dead_elem s' now d = true.
Proof.
  intros Hreg Halive Hdead Hd Hdd.
  destruct (ReapDeadPeers_pass_first_dead s pre post e Hreg Halive Hdead)
    as (s' & Hrun & Hreg' & Hph & Hv).
  exists s'. split; [exact Hrun|]. split; [exact Hreg'|].
  split; [apply elem_of_app; now right|].
  unfold dead_elem. rewrite (peer_of_eq s s' d Hph (Hv d)). exact Hdd.
Qed.

(** When a single peer is dead, one pass leaves no dead peer. *)
Corollary ReapDeadPeers_pass_single_dead
    (s : Server) (pre post : list nat) (e : nat) :
  registry s (pre ++ e :: post) ->
  (forall c, c ∈ pre ++ post -> dead_elem s now c = false) ->
  dead_elem s now e = true ->
  exists s',
    ReapDeadPeers_pass s now = Ret s'
    /\ registry s' (pre ++ post)
    /\ forall c, c ∈ pre ++ post -> dead_elem s' now c = false.
Proof.
  intros Hreg Halive Hdead.
  destruct (ReapDeadPeers_pass_first_dead s pre post e Hreg) as (s' & Hrun & Hreg' & Hph & Hv);
    [intros c Hc; apply Halive, elem_of_app; now left | exact Hdead |].
  exists s'. split; [exact Hrun|]. split; [exact Hreg'|].
  intros c Hc. unfold dead_elem. rewrite (peer_of_eq s s' c Hph (Hv c)).
  exact (Halive c Hc).
Qed.

End Reaping.


(** The scenario of section 8: of three inbound peers exactly one has its
    disconnect flag set, wherever it sits; one pass leaves two inbound
    peers. *)
Example ReapDeadPeers_one_of_three (k : nat) :
  (k < 3)%nat ->
  (s ← ReapDeadPeers_pass (stop_peer three_inbound k) 0; InboundPeers s)
  = Ret (filter (fun p => p <> Some k) [Some 0; Some 1; Some 2]%nat).
Proof.
  intros Hk. destruct k as [|[|[|k]]]; [vm_compute; reflexivity ..| lia].
Qed.

(** C3.  Three inbound peers, the first two (at the addresses 0 and 1)
    with their disconnect flag set: after one pass the second peer is
    still registered, and it is dead.  The pass took out the first peer,
    and [Next] of the element it had just removed (the element at address
    1) is nil, which ended the walk. *)
Theorem ReapDeadPeers_pass_leaves_a_dead_peer :
  let s := stop_peer (stop_peer three_inbound 0) 1 in
  exists s',
    ReapDeadPeers_pass s 0 = Ret s'
    /\ InboundPeers s' = Ret [Some 1; Some 2]%nat
    /\ (x ← load_peer s' 1; Ret (dead x 0)) = Ret true
    /\ Next (elems s') (Some 1%nat) = Ret None.
Proof.
  cbv zeta. eexists. split; [vm_compute; reflexivity|].
  repeat split; vm_compute; reflexivity.
Qed.

(** *** Reachable states *)

(** A list splits at the first element on which [f] is true. *)
Lemma first_true {A : Type} (f : A -> bool) (l : list A) :
  (forall x, x ∈ l -> f x = false)
  \/ exists pre e post,
       l = pre ++ e :: post /\ (forall x, x ∈ pre -> f x = false) /\ f e = true.
Proof.
  induction l as [|a l IH].
  - left. intros x Hx. inversion Hx.
  - destruct (f a) eqn:Ha.
    + right. exists [], a, l. split; [reflexivity|]. split; [|assumption].
      intros x Hx. inversion Hx.
    + destruct IH as [IH|(pre & e & post & -> & Hpre & He)].
      * left. intros x [->|Hx]%elem_of_cons; [assumption | now apply IH].
      * right. exists (a :: pre), e, post. split; [reflexivity|].
        split; [|assumption].
        intros x [->|Hx]%elem_of_cons; [assumption | now apply Hpre].
Qed.

Lemma set_peer_registry (s : Server) (es : list nat) (p : nat) (x : Peer) :
  registry s es -> registry (set_peer s p x) es.
Proof.
  intros [H1 H2 H3 H4 H5]. split; cbn [set_peer elems peers peer_heap];
    try assumption.
  intros q Hq. rewrite lookup_insert_is_Some'. right. now apply H5.
Qed.

(** Every reachable state is a registry. *)
Theorem reachable_registry (s : Server) :
  reachable s -> exists es, registry s es.
Proof.
  induction 1 as [s Hnew|s s' pong _ [es IH] Hrun|s s' pong _ [es IH] Hrun
                 |accepts s s' msgType data _ [es IH] Hrun
                 |s s' now _ [es IH] Hrun|s p x _ [es IH] Hp].
  - destruct NewServer_registry as (s0 & Hs0 & Hreg & _).
    exists []. congruence.
  - destruct (AddPeer_registry s es pong IH) as (s0 & Hs0 & Hreg & _).
    eexists. replace s' with s0 by congruence. exact Hreg.
  - destruct (ConnectToPeer_registry s es pong IH) as (s0 & Hs0 & Hreg & _).
    eexists. replace s' with s0 by congruence. exact Hreg.
  - destruct (Broadcast_keeps_registry accepts s es msgType data IH)
      as (s0 & Hs0 & Hreg).
    exists es. replace s' with s0 by congruence. exact Hreg.
  - destruct (first_true (dead_elem s now) es)
      as [Halive|(pre & e & post & -> & Halive & Hdead)].
    + rewrite (ReapDeadPeers_pass_none_dead now s es IH Halive) in Hrun.
      exists es. congruence.
    + destruct (ReapDeadPeers_pass_first_dead now s pre post e IH Halive Hdead)
        as (s0 & Hs0 & Hreg & _).
      exists (pre ++ post). replace s' with s0 by congruence. exact Hreg.
  - exists es. now apply set_peer_registry.
Qed.

(** X13.  On every state the server reaches, each of [AddPeer],
    [ConnectToPeer], [Broadcast], a round of [ReapDeadPeers],
    [InboundPeers] and [OutboundPeers] returns: none of them panics or
    walks without end. *)
Theorem reachable_total (s : Server) :
  reachable s ->
  (forall pong, exists s', AddPeer s pong = Ret s')
  /\ (forall pong, exists s', ConnectToPeer s pong = Ret s')
  /\ (forall accepts msgType data, exists s', Broadcast accepts s msgType data = Ret s')
  /\ (forall now, exists s', ReapDeadPeers_pass s now = Ret s')
  /\ (exists ps, InboundPeers s = Ret ps)
  /\ (exists ps, OutboundPeers s = Ret ps).
Proof.
  intros [es Hreg]%reachable_registry. repeat split.
  - intros pong. destruct (AddPeer_registry s es pong Hreg) as (s' & H & _). eauto.
  - intros pong. destruct (ConnectToPeer_registry s es pong Hreg) as (s' & H & _).
    eauto.
  - intros accepts msgType data.
    destruct (Broadcast_keeps_registry accepts s es msgType data Hreg)
      as (s' & H & _).
    eauto.
  - intros now.
    destruct (first_true (dead_elem s now) es)
      as [Halive|(pre & e & post & -> & Halive & Hdead)].
    + exists s. exact (ReapDeadPeers_pass_none_dead now s es Hreg Halive).
    + destruct (ReapDeadPeers_pass_first_dead now s pre post e Hreg Halive Hdead)
        as (s' & H & _). eauto.
  - eexists. exact (InboundPeers_registry s es Hreg).
  - eexists. exact (OutboundPeers_registry s es Hreg).
Qed.

End Registry.

(** ** Using the registry *)

Section RegistryUse.

Import GoList Srv.

(** *** The walk of [eachPeer] *)

Lemma call_each_cons {A : Type}
    (callback : nat -> nat -> Server * A -> outcome (Server * A))
    (e : nat) (es : list nat) (st : Server * A) (el : Element) :
  elems st.1 !! e = Some el ->
  call_each callback (e :: es) st
  = st' ← callback (Value el) e st; call_each callback es st'.
Proof. intros Hel. cbn [call_each]. now rewrite (load_Some _ _ _ Hel). Qed.

Lemma eachPeer_from_call_each {A : Type}
    (callback : nat -> nat -> Server * A -> outcome (Server * A)) (r : nat)
    (Hkeep : forall p e st st', callback p e st = Ret st' -> elems st'.1 = elems st.1)
    (es : list nat) :
  forall (c : nat) (fuel : nat) (st : Server * A),
    (length es < fuel)%nat ->
    elist <$> elems st.1 !! c = Some (Some r) ->
    linked (elems st.1) r c es ->
    eachPeer_from fuel callback (Some c) st = call_each callback (c :: es) st.
Proof.
  induction es as [|c' es IH]; intros c fuel st Hfuel Hl Hlink.
  all: destruct fuel as [|fuel]; [simpl in Hfuel; lia|].
  all: pose proof (Next_linked _ _ _ _ Hl Hlink) as Hnext.
  all: destruct (elems st.1 !! c) as [el|] eqn:Hel; [|discriminate].
  all: rewrite (eachPeer_from_step callback fuel c st el Hel).
  all: rewrite (call_each_cons callback c _ st el Hel).
  all: destruct (callback (Value el) c st) as [st'| |] eqn:Hcb;
       cbn [mbind outcome_bind obind]; try reflexivity.
  all: rewrite (Hkeep _ _ _ _ Hcb), Hnext; cbn [mbind outcome_bind obind head].
  - rewrite eachPeer_from_nil. reflexivity.
  - simpl in Hlink. destruct Hlink as (_ & _ & Hl' & _ & Hlink').
    apply IH.
    + simpl in Hfuel. lia.
    + now rewrite (Hkeep _ _ _ _ Hcb).
    + now rewrite (Hkeep _ _ _ _ Hcb).
Qed.

Lemma eachPeer_registry {A : Type}
    (callback : nat -> nat -> Server * A -> outcome (Server * A))
    (s : Server) (a : A) (es : list nat) :
  registry s es ->
  (forall p e st st', callback p e st = Ret st' -> elems st'.1 = elems st.1) ->
  eachPeer callback (s, a) = call_each callback es (s, a).
Proof.
  intros [Hlink Hnd Hlen Hpeers Halloc] Hkeep.
  unfold eachPeer. cbn [fst].
  rewrite (Front_linked _ _ _ Hlink Hlen). cbn [mbind outcome_bind obind].
  destruct es as [|e es].
  - apply eachPeer_from_nil.
  - simpl in Hlink. destruct Hlink as (_ & _ & Hl & _ & Hlink). cbn [head].
    apply (eachPeer_from_call_each callback (root (peers s)) Hkeep es e _ (s, a)).
    + rewrite Hlen. simpl length. lia.
    + exact Hl.
    + exact Hlink.
Qed.

Lemma Stop_func_keeps_elems (p e : nat) (st st' : Server * unit) :
  Stop_func p e st = Ret st' -> elems st'.1 = elems st.1.
Proof.
  unfold Stop_func, load_peer. destruct (peer_heap st.1 !! p); [|discriminate].
  cbn [mbind outcome_bind obind]. intros [= <-]. reflexivity.
Qed.

(** X14.  On a registry, [eachPeer] with a callback that leaves the list
    elements alone calls it on every element once, in list order, with the
    peer the element holds, and stops at the first call that panics. *)
Theorem eachPeer_calls_each {A : Type}
    (callback : nat -> nat -> Server * A -> outcome (Server * A))
    (s : Server) (a : A) (es : list nat) :
  registry s es ->
  (forall p e st st', callback p e st = Ret st' -> elems st'.1 = elems st.1) ->
  eachPeer callback (s, a) = call_each callback es (s, a).
Proof. exact (eachPeer_registry callback s a es). Qed.

Lemma eachPeer_calls_each_witness :
  eachPeer Stop_func (three_inbound, tt)
  = call_each Stop_func [1; 2; 3]%nat (three_inbound, tt).
Proof.
  apply (eachPeer_calls_each Stop_func three_inbound tt [1; 2; 3]%nat).
  - exact three_inbound_registry.
  - exact Stop_func_keeps_elems.
Defined.


(** *** Stopping the server *)

Lemma call_each_Stop (es : list nat) :
  forall s : Server,
    (forall e, e ∈ es -> is_Some (peer_of s e)) ->
    exists s',
      call_each Stop_func es (s, tt) = Ret (s', tt)
      /\ peers s' = peers s /\ elems s' = elems s
      /\ forall p,
           peer_heap s' !! p
           = if decide (p ∈ held (elems s) es)
             then Peer_Stop <$> peer_heap s !! p
             else peer_heap s !! p.
Proof.
  induction es as [|e es IH]; intros s Hsome.
  - exists s. repeat split.
  - destruct (Hsome e) as [x Hx]; [left|].
    unfold peer_of in Hx. destruct (elems s !! e) as [el|] eqn:Hel; [|discriminate].
    cbn in Hx.
    rewrite (call_each_cons Stop_func e es (s, tt) el Hel).
    assert (Hstep : Stop_func (Value el) e (s, tt)
                    = Ret (set_peer s (Value el) (Peer_Stop x), tt)).
    { unfold Stop_func, load_peer. cbn [fst]. now rewrite Hx. }
    rewrite Hstep. cbn [mbind outcome_bind obind].
    destruct (IH (set_peer s (Value el) (Peer_Stop x))) as (s' & Hrun & Hp & He & Hph).
    { intros c Hc. destruct (Hsome c) as [y Hy]; [now right|].
      unfold peer_of in Hy |- *. cbn [set_peer elems peer_heap].
      destruct (elems s !! c) as [cl|]; [|discriminate]. cbn in Hy |- *.
      apply lookup_insert_is_Some'. right. eauto. }
    exists s'. split; [exact Hrun|]. split; [exact Hp|]. split; [exact He|].
    intros p. rewrite Hph. cbn [set_peer elems peer_heap].
    rewrite (held_cons _ _ _ _ Hel).
    destruct (decide (p = Value el)) as [->|Hne].
    + rewrite lookup_insert_eq, Hx.
      rewrite (decide_True (P := Value el ∈ Value el :: held (elems s) es)) by left.
      destruct (decide (Value el ∈ held (elems s) es)); reflexivity.
    + rewrite lookup_insert_ne by congruence.
      destruct (decide (p ∈ held (elems s) es)) as [Hin|Hout].
      * rewrite decide_True by now right. reflexivity.
      * rewrite decide_False; [reflexivity|].
        intros [?|?]%elem_of_cons; contradiction.
Qed.

(** X15.  [Stop] on a registry stops every registered peer and no other,
    and takes no peer off the list: afterwards [ReapDeadPeers] takes each
    registered peer for dead, whatever the clock reads. *)
Theorem Stop_stops_every_peer (s : Server) (es : list nat) :
  registry s es ->
  exists s',
    Stop s = Ret s'
    /\ registry s' es
    /\ peers s' = peers s /\ elems s' = elems s
    /\ (forall p,
          peer_heap s' !! p
          = if decide (p ∈ held (elems s) es)
            then Peer_Stop <$> peer_heap s !! p
            else peer_heap s !! p)
    /\ (forall now e, e ∈ es -> dead_elem s' now e = true).
Proof.
  intros Hreg. unfold Stop.
  rewrite (eachPeer_registry Stop_func s tt es Hreg Stop_func_keeps_elems).
  destruct (call_each_Stop es s) as (s' & Hrun & Hp & He & Hph).
  { intros e He. exact (registry_peer_of _ _ _ Hreg He). }
  rewrite Hrun. cbn [mbind outcome_bind obind fst].
  exists s'. split; [reflexivity|].
  assert (Hreg' : registry s' es).
  { destruct Hreg as [H1 H2 H3 H4 H5]. split; rewrite ?Hp, ?He; try assumption.
    intros q Hq. rewrite Hph, decide_True by assumption.
    destruct (H5 q Hq) as [y Hy]. rewrite Hy. cbn. eauto. }
  split; [exact Hreg'|]. split; [exact Hp|]. split; [exact He|].
  split; [exact Hph|].
  intros now e Hin. destruct (registry_peer_of _ _ _ Hreg Hin) as [x Hx].
  unfold dead_elem, peer_of in Hx |- *. rewrite He.
  destruct (elems s !! e) as [el|] eqn:Hel; [|discriminate]. cbn in Hx |- *.
  rewrite Hph, decide_True by exact (held_elem_of _ _ _ _ Hin Hel).
  rewrite Hx. reflexivity.
Qed.

Lemma Stop_stops_every_peer_witness :
  exists s',
    Stop three_inbound = Ret s'
    /\ registry s' [1; 2; 3]%nat
    /\ peers s' = peers three_inbound /\ elems s' = elems three_inbound
    /\ (forall p,
          peer_heap s' !! p
          = if decide (p ∈ held (elems three_inbound) [1; 2; 3]%nat)
            then Peer_Stop <$> peer_heap three_inbound !! p
            else peer_heap three_inbound !! p)
    /\ (forall now e, e ∈ [1; 2; 3]%nat -> dead_elem s' now e = true).
Proof.
  apply (Stop_stops_every_peer three_inbound [1; 2; 3]%nat).
  exact three_inbound_registry.
Defined.

(** *** Registering peers *)

Lemma filter_has_role_ext (s s' : Server) (want : bool) (ps : list nat) :
  (forall q, q ∈ ps -> inbound <$> peer_heap s' !! q = inbound <$> peer_heap s !! q) ->
  filter (has_role s' want) ps = filter (has_role s want) ps.
Proof.
  induction ps as [|q ps IH]; intros H; [reflexivity|].
  rewrite !filter_cons, IH by (intros x Hx; apply H; now right).
  assert (Hq : has_role s' want q <-> has_role s want q).
  { unfold has_role. rewrite (H q) by left. reflexivity. }
  destruct (decide (has_role s' want q)), (decide (has_role s want q));
    solve [reflexivity | tauto].
Qed.

Lemma held_length (s : Server) (es : list nat) :
  registry s es -> length (held (elems s) es) = length es.
Proof.
  intros [Hlink _ _ _ _].
  pose proof (linked_allocated _ _ _ _ Hlink) as Hall.
  assert (H : forall x, x ∈ es -> is_Some (elems s !! x))
    by (intros x Hx; apply Hall; now right).
  clear Hall Hlink. induction es as [|e es IH]; [reflexivity|].
  destruct (H e) as [el Hel]; [left|].
  rewrite (held_cons _ _ _ _ Hel). simpl. f_equal. apply IH.
  intros x Hx. apply H. now right.
Qed.

(** The snapshot of the role [want] after a peer [x] was pushed at the
    fresh address. *)
Lemma push_snapshot (s s' : Server) (es : list nat) (e : nat) (x : Peer) (want : bool) :
  registry s es ->
  held (elems s') (es ++ [e]) = held (elems s) es ++ [fresh (dom (peer_heap s))] ->
  peer_heap s' = <[fresh (dom (peer_heap s)) := x]> (peer_heap s) ->
  filter (has_role s' want) (held (elems s') (es ++ [e]))
  = filter (has_role s want) (held (elems s) es)
    ++ (if decide (inbound x = want) then [fresh (dom (peer_heap s))] else []).
Proof.
  intros Hreg Hheld Hph. rewrite Hheld, filter_app. f_equal.
  - apply filter_has_role_ext. intros q Hq. rewrite Hph.
    rewrite lookup_insert_ne; [reflexivity|]. intros <-.
    apply (reg_alloc _ _ Hreg) in Hq. apply elem_of_dom in Hq.
    exact (is_fresh _ Hq).
  - rewrite filter_cons, filter_nil.
    assert (Hp : has_role s' want (fresh (dom (peer_heap s))) <-> inbound x = want).
    { unfold has_role. rewrite Hph, lookup_insert_eq. cbn. split; congruence. }
    destruct (decide (has_role s' want (fresh (dom (peer_heap s))))),
      (decide (inbound x = want)); solve [reflexivity | tauto].
Qed.

Lemma fresh_peer_None (s : Server) : peer_heap s !! fresh (dom (peer_heap s)) = None.
Proof. apply not_elem_of_dom, is_fresh. Qed.

(** X16.  [AddPeer] on a registry registers one new inbound peer, at the
    end: the inbound snapshot grows by the new peer, the outbound snapshot
    is as it was, and the list is one longer. *)
Theorem AddPeer_snapshots (s : Server) (es : list nat) (pong : Z) :
  registry s es ->
  let p := fresh (dom (peer_heap s)) in
  exists s' ins outs,
    AddPeer s pong = Ret s'
    /\ InboundPeers s = Ret ins /\ OutboundPeers s = Ret outs
    /\ InboundPeers s' = Ret (ins ++ [Some p])
    /\ OutboundPeers s' = Ret outs
    /\ peer_heap s !! p = None
    /\ peer_heap s' !! p = Some (NewPeer true pong)
    /\ Len (peers s') = Len (peers s) + 1.
Proof.
  intros Hreg p.
  destruct (AddPeer_registry s es pong Hreg) as (s' & Hrun & Hreg' & Hheld & Hph).
  exists s'. eexists. eexists. split; [exact Hrun|].
  split; [exact (InboundPeers_registry s es Hreg)|].
  split; [exact (OutboundPeers_registry s es Hreg)|].
  rewrite (InboundPeers_registry s' _ Hreg'), (OutboundPeers_registry s' _ Hreg').
  rewrite !(push_snapshot s s' es _ (NewPeer true pong) _ Hreg Hheld Hph).
  cbn [NewPeer inbound]. rewrite decide_True, decide_False by congruence.
  rewrite fmap_app, app_nil_r.
  split; [reflexivity|]. split; [reflexivity|].
  split; [apply fresh_peer_None|].
  split; [rewrite Hph; apply lookup_insert_eq|].
  rewrite (reg_len _ _ Hreg'), (reg_len _ _ Hreg), length_app. simpl. lia.
Qed.

Lemma AddPeer_snapshots_witness :
  let p := fresh (dom (peer_heap three_inbound)) in
  exists s' ins outs,
    AddPeer three_inbound 7 = Ret s'
    /\ InboundPeers three_inbound = Ret ins /\ OutboundPeers three_inbound = Ret outs
    /\ InboundPeers s' = Ret (ins ++ [Some p])
    /\ OutboundPeers s' = Ret outs
    /\ peer_heap three_inbound !! p = None
    /\ peer_heap s' !! p = Some (NewPeer true 7)
    /\ Len (peers s') = Len (peers three_inbound) + 1.
Proof.
  apply (AddPeer_snapshots three_inbound [1; 2; 3]%nat 7).
  exact three_inbound_registry.
Defined.

(** X17.  [ConnectToPeer] on a registry registers one new outbound peer, at
    the end: the outbound snapshot grows by the new peer, the inbound
    snapshot is as it was, and the list is one longer. *)
Theorem ConnectToPeer_snapshots (s : Server) (es : list nat) (pong : Z) :
  registry s es ->
  let p := fresh (dom (peer_heap s)) in
  exists s' ins outs,
    ConnectToPeer s pong = Ret s'
    /\ InboundPeers s = Ret ins /\ OutboundPeers s = Ret outs
    /\ InboundPeers s' = Ret ins
    /\ OutboundPeers s' = Ret (outs ++ [Some p])
    /\ peer_heap s !! p = None
    /\ peer_heap s' !! p = Some (NewPeer false pong)
    /\ Len (peers s') = Len (peers s) + 1.
Proof.
  intros Hreg p.
  destruct (ConnectToPeer_registry s es pong Hreg) as (s' & Hrun & Hreg' & Hheld & Hph).
  exists s'. eexists. eexists. split; [exact Hrun|].
  split; [exact (InboundPeers_registry s es Hreg)|].
  split; [exact (OutboundPeers_registry s es Hreg)|].
  rewrite (InboundPeers_registry s' _ Hreg'), (OutboundPeers_registry s' _ Hreg').
  rewrite !(push_snapshot s s' es _ (NewPeer false pong) _ Hreg Hheld Hph).
  cbn [NewPeer inbound].
  rewrite (decide_False (P := false = true)), (decide_True (P := false = false))
    by congruence.
  rewrite app_nil_r, fmap_app.
  split; [reflexivity|]. split; [reflexivity|].
  split; [apply fresh_peer_None|].
  split; [rewrite Hph; apply lookup_insert_eq|].
  rewrite (reg_len _ _ Hreg'), (reg_len _ _ Hreg), length_app. simpl. lia.
Qed.

Lemma ConnectToPeer_snapshots_witness :
  let p := fresh (dom (peer_heap three_inbound)) in
  exists s' ins outs,
    ConnectToPeer three_inbound 7 = Ret s'
    /\ InboundPeers three_inbound = Ret ins /\ OutboundPeers three_inbound = Ret outs
    /\ InboundPeers s' = Ret ins
    /\ OutboundPeers s' = Ret (outs ++ [Some p])
    /\ peer_heap three_inbound !! p = None
    /\ peer_heap s' !! p = Some (NewPeer false 7)
    /\ Len (peers s') = Len (peers three_inbound) + 1.
Proof.
  apply (ConnectToPeer_snapshots three_inbound [1; 2; 3]%nat 7).
  exact three_inbound_registry.
Defined.

(** X18.  [ProcessPeerList] on a registry registers one new outbound peer
    for each address, in the order of the addresses, duplicates included:
    the outbound snapshot grows by these peers, the inbound snapshot and
    the peers there were stay as they were. *)
Theorem ProcessPeerList_connects (addrs : list string) (pong : string -> Z) :
  forall (s : Server) (es : list nat),
    registry s es ->
    exists s' new ins outs,
      ProcessPeerList s addrs pong = Ret s'
      /\ InboundPeers s = Ret ins /\ OutboundPeers s = Ret outs
      /\ InboundPeers s' = Ret ins
      /\ OutboundPeers s' = Ret (outs ++ (Some <$> new))
      /\ Forall2 (fun p addr => peer_heap s' !! p = Some (NewPeer false (pong addr)))
           new addrs
      /\ Len (peers s') = Len (peers s) + Z.of_nat (length addrs)
      /\ peer_heap s ⊆ peer_heap s'
      /\ exists es', registry s' es'.
Proof.
  induction addrs as [|addr addrs IH]; intros s es Hreg.
  - exists s, []. eexists. eexists. split; [reflexivity|].
    split; [exact (InboundPeers_registry s es Hreg)|].
    split; [exact (OutboundPeers_registry s es Hreg)|].
    split; [exact (InboundPeers_registry s es Hreg)|].
    split; [rewrite fmap_nil, app_nil_r; exact (OutboundPeers_registry s es Hreg)|].
    split; [constructor|]. split; [simpl; lia|]. split; [reflexivity|].
    exists es. exact Hreg.
  - destruct (ConnectToPeer_registry s es (pong addr) Hreg)
      as (s1 & Hrun1 & Hreg1 & Hheld & Hph).
    destruct (IH s1 _ Hreg1)
      as (s' & new & ins & outs & Hrun & Hin1 & Hout1 & Hin' & Hout' & Hnew & Hlen
          & Hsub & Hreg').
    rewrite (InboundPeers_registry s1 _ Hreg1) in Hin1.
    rewrite (OutboundPeers_registry s1 _ Hreg1) in Hout1.
    rewrite (push_snapshot s s1 es _ (NewPeer false (pong addr)) _ Hreg Hheld Hph)
      in Hin1.
    rewrite (push_snapshot s s1 es _ (NewPeer false (pong addr)) _ Hreg Hheld Hph)
      in Hout1.
    cbn [NewPeer inbound] in Hin1, Hout1.
    rewrite decide_False in Hin1 by congruence.
    rewrite decide_True in Hout1 by reflexivity.
    rewrite app_nil_r in Hin1. rewrite fmap_app in Hout1.
    injection Hin1 as <-. injection Hout1 as <-.
    exists s', (fresh (dom (peer_heap s)) :: new). eexists. eexists.
    split; [cbn [ProcessPeerList]; rewrite Hrun1; exact Hrun|].
    split; [exact (InboundPeers_registry s es Hreg)|].
    split; [exact (OutboundPeers_registry s es Hreg)|].
    split; [exact Hin'|].
    split; [rewrite Hout', <- app_assoc; reflexivity|].
    split.
    { constructor; [|exact Hnew].
      apply (lookup_weaken (peer_heap s1)); [|exact Hsub].
      rewrite Hph. apply lookup_insert_eq. }
    split.
    { rewrite Hlen, (reg_len _ _ Hreg1), (reg_len _ _ Hreg), length_app.
      simpl. lia. }
    split; [|exact Hreg'].
    etransitivity; [|exact Hsub]. rewrite Hph.
    apply insert_subseteq, fresh_peer_None.
Qed.

Lemma ProcessPeerList_connects_witness :
  exists s' new ins outs,
    ProcessPeerList three_inbound ["a"; "b"; "a"]%string (fun _ => 7) = Ret s'
    /\ InboundPeers three_inbound = Ret ins /\ OutboundPeers three_inbound = Ret outs
    /\ InboundPeers s' = Ret ins
    /\ OutboundPeers s' = Ret (outs ++ (Some <$> new))
    /\ Forall2 (fun p addr => peer_heap s' !! p = Some (NewPeer false 7))
         new ["a"; "b"; "a"]%string
    /\ Len (peers s') = Len (peers three_inbound) + Z.of_nat 3
    /\ peer_heap three_inbound ⊆ peer_heap s'
    /\ exists es', registry s' es'.
Proof.
  apply (ProcessPeerList_connects ["a"; "b"; "a"]%string (fun _ => 7)
           three_inbound [1; 2; 3]%nat).
  exact three_inbound_registry.
Defined.

(** *** Snapshots of a reachable server *)

Lemma three_inbound_reachable : reachable three_inbound.
Proof.
  apply (reach_AddPeer
           (the (s ← NewServer; s ← AddPeer s 0; AddPeer s 0) three_inbound) _ 0);
    [|vm_compute; reflexivity].
  apply (reach_AddPeer (the (s ← NewServer; AddPeer s 0) three_inbound) _ 0);
    [|vm_compute; reflexivity].
  apply (reach_AddPeer (the NewServer three_inbound) _ 0);
    [|vm_compute; reflexivity].
  apply reach_NewServer. vm_compute. reflexivity.
Qed.

(** X19.  In every state the server reaches, the two snapshots return,
    list each registered peer once, in one of them and by its role, and
    together hold as many peers as the list is long. *)
Theorem reachable_snapshots (s : Server) :
  reachable s ->
  exists ins outs : list nat,
    InboundPeers s = Ret (Some <$> ins)
    /\ OutboundPeers s = Ret (Some <$> outs)
    /\ NoDup (ins ++ outs)
    /\ Z.of_nat (length ins + length outs) = Len (peers s)
    /\ (forall p, p ∈ ins -> inbound <$> peer_heap s !! p = Some true)
    /\ (forall p, p ∈ outs -> inbound <$> peer_heap s !! p = Some false).
Proof.
  intros [es Hreg]%reachable_registry.
  exists (filter (has_role s true) (held (elems s) es)),
         (filter (has_role s false) (held (elems s) es)).
  split; [exact (InboundPeers_registry s es Hreg)|].
  split; [exact (OutboundPeers_registry s es Hreg)|].
  pose proof (filter_roles s (held (elems s) es) (reg_alloc _ _ Hreg)) as Hperm.
  split; [rewrite Hperm; exact (reg_nodup _ _ Hreg)|].
  split.
  - rewrite <- length_app, Hperm, (held_length s es Hreg).
    symmetry. exact (reg_len _ _ Hreg).
  - split; intros p [Hp _]%list_elem_of_filter; exact Hp.
Qed.

Lemma reachable_snapshots_witness :
  exists ins outs : list nat,
    InboundPeers three_inbound = Ret (Some <$> ins)
    /\ OutboundPeers three_inbound = Ret (Some <$> outs)
    /\ NoDup (ins ++ outs)
    /\ Z.of_nat (length ins + length outs) = Len (peers three_inbound)
    /\ (forall p, p ∈ ins -> inbound <$> peer_heap three_inbound !! p = Some true)
    /\ (forall p, p ∈ outs -> inbound <$> peer_heap three_inbound !! p = Some false).
Proof. apply (reachable_snapshots three_inbound). exact three_inbound_reachable. Defined.

(** *** Broadcasting *)

Lemma QueueMessage_fields (accepts : Peer -> bool) (x : Peer) (msg : Msg) :
  inbound (QueueMessage accepts x msg) = inbound x
  /\ disconnect (QueueMessage accepts x msg) = disconnect x
  /\ lastPong (QueueMessage accepts x msg) = lastPong x.
Proof. unfold QueueMessage. destruct (accepts x); repeat split. Qed.

(** X20.  [Broadcast] changes neither snapshot, and no peer becomes dead or
    alive by it: it touches the send queues only. *)
Theorem Broadcast_keeps_snapshots (accepts : Peer -> bool) (s : Server)
    (es : list nat) (msgType : string) (data : list byte) :
  registry s es ->
  exists s',
    Broadcast accepts s msgType data = Ret s'
    /\ InboundPeers s' = InboundPeers s
    /\ OutboundPeers s' = OutboundPeers s
    /\ forall now e, dead_elem s' now e = dead_elem s now e.
Proof.
  intros Hreg.
  destruct (Broadcast_keeps_registry accepts s es msgType data Hreg)
    as (s' & Hrun & Hreg').
  exists s'. split; [exact Hrun|].
  rewrite (Broadcast_registry accepts s es msgType data Hreg) in Hrun.
  injection Hrun as <-.
  assert (Hph : forall q,
             peer_heap
               (mkServer (peers s) (elems s)
                  (deliver accepts (NewMessage msgType data) (peer_heap s)
                     (held (elems s) es))) !! q
             = (if decide (q ∈ held (elems s) es)
                then (fun x => QueueMessage accepts x (NewMessage msgType data))
                       <$> peer_heap s !! q
                else peer_heap s !! q)).
  { intros q. cbn [peer_heap]. apply deliver_lookup. exact (reg_nodup _ _ Hreg). }
  rewrite (InboundPeers_registry _ es Hreg'), (OutboundPeers_registry _ es Hreg').
  rewrite (InboundPeers_registry s es Hreg), (OutboundPeers_registry s es Hreg).
  cbn [elems].
  assert (Hrole : forall q,
             inbound <$> peer_heap
               (mkServer (peers s) (elems s)
                  (deliver accepts (NewMessage msgType data) (peer_heap s)
                     (held (elems s) es))) !! q
             = inbound <$> peer_heap s !! q).
  { intros q. rewrite Hph. case_decide; [|reflexivity].
    destruct (peer_heap s !! q) as [x|]; [|reflexivity]. cbn.
    now rewrite (proj1 (QueueMessage_fields accepts x _)). }
  split; [|split].
  - f_equal. f_equal. apply filter_has_role_ext. intros q _. apply Hrole.
  - f_equal. f_equal. apply filter_has_role_ext. intros q _. apply Hrole.
  - intros now e. unfold dead_elem, peer_of. cbn [elems].
    destruct (elems s !! e) as [el|]; [|reflexivity]. cbn [mbind option_bind].
    rewrite Hph. case_decide; [|reflexivity].
    destruct (peer_heap s !! Value el) as [x|]; [|reflexivity]. cbn.
    unfold dead.
    destruct (QueueMessage_fields accepts x (NewMessage msgType data))
      as (-> & -> & ->).
    reflexivity.
Qed.

Lemma Broadcast_keeps_snapshots_witness :
  exists s',
    Broadcast (fun _ => true) three_inbound "ping" [x01] = Ret s'
    /\ InboundPeers s' = InboundPeers three_inbound
    /\ OutboundPeers s' = OutboundPeers three_inbound
    /\ forall now e, dead_elem s' now e = dead_elem three_inbound now e.
Proof.
  apply (Broadcast_keeps_snapshots (fun _ => true) three_inbound [1; 2; 3]%nat).
  exact three_inbound_registry.
Defined.

(** *** Rounds of reaping *)

Lemma reap_first_none (s : Server) (now : Z) (es : list nat) :
  (forall c, c ∈ es -> dead_elem s now c = false) -> reap_first s now es = es.
Proof.
  induction es as [|e es IH]; intros H; [reflexivity|].
  cbn [reap_first]. rewrite (H e) by left. f_equal. apply IH.
  intros c Hc. apply H. now right.
Qed.

Lemma reap_first_split (s : Server) (now : Z) (pre post : list nat) (e : nat) :
  (forall c, c ∈ pre -> dead_elem s now c = false) ->
  dead_elem s now e = true ->
  reap_first s now (pre ++ e :: post) = pre ++ post.
Proof.
  induction pre as [|c pre IH]; intros H He; cbn [app reap_first].
  - now rewrite He.
  - rewrite (H c) by left. f_equal. apply IH; [|exact He].
    intros x Hx. apply H. now right.
Qed.

Lemma reap_first_ext (s s' : Server) (now now' : Z) (es : list nat) :
  (forall c, c ∈ es -> dead_elem s' now' c = dead_elem s now c) ->
  reap_first s' now' es = reap_first s now es.
Proof.
  induction es as [|e es IH]; intros H; [reflexivity|].
  cbn [reap_first]. rewrite (H e) by left.
  destruct (dead_elem s now e); [reflexivity|]. f_equal. apply IH.
  intros c Hc. apply H. now right.
Qed.

Lemma reap_first_subseteq (s : Server) (now : Z) (es : list nat) :
  forall c, c ∈ reap_first s now es -> c ∈ es.
Proof.
  induction es as [|e es IH]; intros c; cbn [reap_first]; [tauto|].
  destruct (dead_elem s now e).
  - intros Hc. now right.
  - intros [->|Hc]%elem_of_cons; [left | right; now apply IH].
Qed.

Lemma two_stopped_registry :
  registry (stop_peer (stop_peer three_inbound 0) 1) [1; 2; 3]%nat.
Proof.
  unfold stop_peer. repeat case_match; repeat apply set_peer_registry;
    exact three_inbound_registry.
Qed.

(** What one round does to a registry, in full. *)
Lemma ReapDeadPeers_pass_registry (s : Server) (now : Z) (es : list nat) :
  registry s es ->
  exists s',
    ReapDeadPeers_pass s now = Ret s'
    /\ registry s' (reap_first s now es)
    /\ peer_heap s' = peer_heap s
    /\ forall e, peer_of s' e = peer_of s e.
Proof.
  intros Hreg.
  destruct (first_true (dead_elem s now) es)
    as [Halive|(pre & e & post & -> & Halive & Hdead)].
  - exists s. rewrite (reap_first_none s now es Halive).
    split; [exact (ReapDeadPeers_pass_none_dead now s es Hreg Halive)|].
    split; [exact Hreg|]. split; reflexivity.
  - destruct (ReapDeadPeers_pass_first_dead now s pre post e Hreg Halive Hdead)
      as (s' & Hrun & Hreg' & Hph & Hv).
    exists s'. rewrite (reap_first_split s now pre post e Halive Hdead).
    split; [exact Hrun|]. split; [exact Hreg'|]. split; [exact Hph|].
    intros c. exact (peer_of_eq s s' c Hph (Hv c)).
Qed.

(** X21.  One round of [ReapDeadPeers] on a registry takes the first dead
    peer off the list and no other: the peers before it and all the peers
    behind it, dead or not, stay registered, and no peer changes. *)
Theorem ReapDeadPeers_pass_reaps_first (s : Server) (now : Z) (es : list nat) :
  registry s es ->
  exists s',
    ReapDeadPeers_pass s now = Ret s'
    /\ registry s' (reap_first s now es)
    /\ peer_heap s' = peer_heap s
    /\ forall e, peer_of s' e = peer_of s e.
Proof. exact (ReapDeadPeers_pass_registry s now es). Qed.

Lemma ReapDeadPeers_pass_reaps_first_witness :
  exists s',
    ReapDeadPeers_pass (stop_peer (stop_peer three_inbound 0) 1) 0 = Ret s'
    /\ registry s'
         (reap_first (stop_peer (stop_peer three_inbound 0) 1) 0 [1; 2; 3]%nat)
    /\ peer_heap s' = peer_heap (stop_peer (stop_peer three_inbound 0) 1)
    /\ forall e, peer_of s' e = peer_of (stop_peer (stop_peer three_inbound 0) 1) e.
Proof.
  apply (ReapDeadPeers_pass_reaps_first
           (stop_peer (stop_peer three_inbound 0) 1) 0 [1; 2; 3]%nat).
  exact two_stopped_registry.
Defined.

(** The elements that hold a dead peer. *)
Lemma dead_count_reap_first (s : Server) (now : Z) (es : list nat) :
  length (filter (fun e => dead_elem s now e = true) (reap_first s now es))
  = pred (length (filter (fun e => dead_elem s now e = true) es)).
Proof.
  induction es as [|e es IH]; [reflexivity|].
  cbn [reap_first]. destruct (dead_elem s now e) eqn:He.
  - rewrite (filter_cons_True _ e es) by exact He. reflexivity.
  - rewrite !filter_cons_False by congruence. exact IH.
Qed.

Lemma filter_alive_reap_first (s : Server) (now : Z) (es : list nat) :
  length (filter (fun e => dead_elem s now e = true) es) = O ->
  filter (fun e => dead_elem s now e = false) es = es.
Proof.
  induction es as [|e es IH]; [reflexivity|].
  destruct (dead_elem s now e) eqn:He.
  - rewrite (filter_cons_True _ e es) by exact He. discriminate.
  - rewrite filter_cons_False by congruence.
    rewrite filter_cons_True by exact He. intros H. f_equal. now apply IH.
Qed.

Lemma filter_alive_reap (s : Server) (now : Z) (es : list nat) :
  filter (fun e => dead_elem s now e = false) (reap_first s now es)
  = filter (fun e => dead_elem s now e = false) es.
Proof.
  induction es as [|e es IH]; [reflexivity|].
  cbn [reap_first]. destruct (dead_elem s now e) eqn:He.
  - rewrite (filter_cons_False _ e es) by congruence. reflexivity.
  - rewrite !filter_cons_True by exact He. now rewrite IH.
Qed.

(** What the rounds do to a registry while the same peers are dead at
    each clock reading. *)
Lemma ReapDeadPeers_rounds_registry (now : Z) (nows : list Z) :
  forall (s : Server) (es : list nat),
    registry s es ->
    (forall now' e, now' ∈ nows -> e ∈ es -> dead_elem s now' e = dead_elem s now e) ->
    exists s' es',
      ReapDeadPeers_rounds s nows = Ret s'
      /\ registry s' es'
      /\ peer_heap s' = peer_heap s
      /\ (forall e, peer_of s' e = peer_of s e)
      /\ filter (fun e => dead_elem s now e = false) es'
         = filter (fun e => dead_elem s now e = false) es
      /\ length (filter (fun e => dead_elem s now e = true) es')
         = (length (filter (fun e => dead_elem s now e = true) es) - length nows)%nat.
Proof.
  induction nows as [|now1 nows IH]; intros s es Hreg Hsame.
  - exists s, es. split; [reflexivity|]. split; [exact Hreg|].
    split; [reflexivity|]. split; [reflexivity|]. split; [reflexivity|].
    simpl. lia.
  - destruct (ReapDeadPeers_pass_registry s now1 es Hreg)
      as (s1 & Hrun1 & Hreg1 & Hph1 & Hpeer1).
    assert (Hfirst : reap_first s now1 es = reap_first s now es).
    { apply reap_first_ext. intros c Hc. apply Hsame; [left | exact Hc]. }
    rewrite Hfirst in Hreg1.
    assert (Hdead1 : forall t e, dead_elem s1 t e = dead_elem s t e).
    { intros t e. unfold dead_elem. now rewrite Hpeer1. }
    destruct (IH s1 _ Hreg1) as (s' & es' & Hrun & Hreg' & Hph & Hpeer & Halive & Hcount).
    { intros now' e Hnow' He. rewrite !Hdead1.
      apply Hsame; [now right | exact (reap_first_subseteq _ _ _ _ He)]. }
    exists s', es'. split; [cbn [ReapDeadPeers_rounds]; rewrite Hrun1; exact Hrun|].
    split; [exact Hreg'|]. split; [congruence|].
    split; [intros e; now rewrite Hpeer|].
    assert (Hext : forall (b : bool) (l : list nat),
               filter (fun e => dead_elem s1 now e = b) l
               = filter (fun e => dead_elem s now e = b) l).
    { intros b l. apply list_filter_iff. intros e. now rewrite Hdead1. }
    rewrite !Hext in Halive, Hcount. split.
    + rewrite Halive. apply filter_alive_reap.
    + rewrite Hcount, dead_count_reap_first. simpl. lia.
Qed.

(** X22.  After as many rounds of [ReapDeadPeers] as dead peers are
    registered, with the same peers dead at each clock reading, the list
    holds the peers that are not dead, in their order, and no other. *)
Theorem ReapDeadPeers_rounds_reap_all (s : Server) (es : list nat)
    (now : Z) (nows : list Z) :
  registry s es ->
  (forall now' e, now' ∈ nows -> e ∈ es -> dead_elem s now' e = dead_elem s now e) ->
  (length (filter (fun e => dead_elem s now e = true) es) <= length nows)%nat ->
  exists s',
    ReapDeadPeers_rounds s nows = Ret s'
    /\ registry s' (filter (fun e => dead_elem s now e = false) es)
    /\ peer_heap s' = peer_heap s.
Proof.
  intros Hreg Hsame Hn.
  destruct (ReapDeadPeers_rounds_registry now nows s es Hreg Hsame)
    as (s' & es' & Hrun & Hreg' & Hph & _ & Halive & Hcount).
  exists s'. split; [exact Hrun|]. split; [|exact Hph].
  rewrite <- Halive, filter_alive_reap_first; [exact Hreg'|]. lia.
Qed.

Lemma ReapDeadPeers_rounds_reap_all_witness :
  exists s',
    ReapDeadPeers_rounds (stop_peer (stop_peer three_inbound 0) 1) [0; 60] = Ret s'
    /\ registry s'
         (filter (fun e => dead_elem (stop_peer (stop_peer three_inbound 0) 1) 0 e = false)
            [1; 2; 3]%nat)
    /\ peer_heap s' = peer_heap (stop_peer (stop_peer three_inbound 0) 1).
Proof.
  apply (ReapDeadPeers_rounds_reap_all
           (stop_peer (stop_peer three_inbound 0) 1) [1; 2; 3]%nat 0 [0; 60]).
  - exact two_stopped_registry.
  - intros now' e Hnow He.
    repeat (apply elem_of_cons in Hnow as [->|Hnow]; [
      repeat (apply elem_of_cons in He as [->|He]; [vm_compute; reflexivity|]);
      inversion He |]).
    inversion Hnow.
  - vm_compute. lia.
Defined.

(** X23.  With fewer rounds of [ReapDeadPeers] than dead peers are
    registered, a dead peer is still registered at the end. *)
Theorem ReapDeadPeers_rounds_too_few (s : Server) (es : list nat)
    (now : Z) (nows : list Z) :
  registry s es ->
  (forall now' e, now' ∈ nows -> e ∈ es -> dead_elem s now' e = dead_elem s now e) ->
  (length nows < length (filter (fun e => dead_elem s now e = true) es))%nat ->
  exists s' es' e,
    ReapDeadPeers_rounds s nows = Ret s'
    /\ registry s' es'
    /\ e ∈ es' /\ dead_elem s' now e = true.
Proof.
  intros Hreg Hsame Hn.
  destruct (ReapDeadPeers_rounds_registry now nows s es Hreg Hsame)
    as (s' & es' & Hrun & Hreg' & Hph & Hpeer & _ & Hcount).
  destruct (filter (fun e => dead_elem s now e = true) es') as [|e l] eqn:Hf;
    [simpl in Hcount; lia|].
  assert (He : e ∈ filter (fun e => dead_elem s now e = true) es')
    by (rewrite Hf; left).
  apply list_elem_of_filter in He as [Hd He].
  exists s', es', e. split; [exact Hrun|]. split; [exact Hreg'|].
  split; [exact He|]. unfold dead_elem in Hd |- *. now rewrite Hpeer.
Qed.

Lemma ReapDeadPeers_rounds_too_few_witness :
  exists s' es' e,
    ReapDeadPeers_rounds (stop_peer (stop_peer three_inbound 0) 1) [0] = Ret s'
    /\ registry s' es'
    /\ e ∈ es' /\ dead_elem s' 0 e = true.
Proof.
  apply (ReapDeadPeers_rounds_too_few
           (stop_peer (stop_peer three_inbound 0) 1) [1; 2; 3]%nat 0 [0]).
  - exact two_stopped_registry.
  - intros now' e Hnow He.
    apply list_elem_of_singleton in Hnow. rewrite Hnow. reflexivity.
  - vm_compute. lia.
Defined.

(** X24.  A peer that a round of [ReapDeadPeers] took off the list gets no
    later broadcast, and the peers still registered get it. *)
Theorem Broadcast_skips_reaped (accepts : Peer -> bool) (s : Server)
    (pre post : list nat) (e : nat) (now : Z) (msgType : string) (data : list byte) :
  registry s (pre ++ e :: post) ->
  (forall c, c ∈ pre -> dead_elem s now c = false) ->
  dead_elem s now e = true ->
  exists s1 s2,
    ReapDeadPeers_pass s now = Ret s1
    /\ Broadcast accepts s1 msgType data = Ret s2
    /\ peer_of s2 e = peer_of s e
    /\ forall c, c ∈ pre ++ post ->
         peer_of s2 c
         = (fun x => QueueMessage accepts x (NewMessage msgType data)) <$> peer_of s c.
Proof.
  intros Hreg Halive Hdead.
  destruct (ReapDeadPeers_pass_first_dead now s pre post e Hreg Halive Hdead)
    as (s1 & Hrun1 & Hreg1 & Hph & Hv).
  exists s1. eexists. split; [exact Hrun1|].
  split; [exact (Broadcast_registry accepts s1 (pre ++ post) msgType data Hreg1)|].
  assert (Hheld : held (elems s1) (pre ++ post) = held (elems s) (pre ++ post)).
  { apply held_ext. intros x _. apply Hv. }
  assert (Hnd : NoDup (held (elems s) (pre ++ post))).
  { rewrite <- Hheld. exact (reg_nodup _ _ Hreg1). }
  assert (Hpeer : forall c,
             peer_of
               (mkServer (peers s1) (elems s1)
                  (deliver accepts (NewMessage msgType data) (peer_heap s1)
                     (held (elems s1) (pre ++ post)))) c
             = el ← elems s !! c;
               if decide (Value el ∈ held (elems s) (pre ++ post))
               then (fun x => QueueMessage accepts x (NewMessage msgType data))
                      <$> peer_heap s !! Value el
               else peer_heap s !! Value el).
  { intros c. unfold peer_of. cbn [elems peer_heap]. rewrite Hheld, Hph.
    pose proof (Hv c) as Hc.
    destruct (elems s1 !! c) as [el1|], (elems s !! c) as [el|];
      cbn in Hc |- *; try congruence.
    injection Hc as ->. now apply deliver_lookup. }
  pose proof (reg_nodup _ _ Hreg) as Hnd0.
  rewrite held_app in Hnd0.
  split.
  - rewrite Hpeer. unfold peer_of.
    destruct (elems s !! e) as [el|] eqn:Hel; [|reflexivity]. cbn.
    rewrite decide_False; [reflexivity|].
    rewrite (held_cons _ _ _ _ Hel) in Hnd0.
    apply NoDup_app in Hnd0 as (_ & H1 & H2). apply NoDup_cons in H2 as [H2 _].
    rewrite held_app. intros [Hin|Hin]%elem_of_app; [|contradiction].
    apply (H1 _ Hin). left.
  - intros c Hc. rewrite Hpeer. unfold peer_of.
    destruct (elems s !! c) as [el|] eqn:Hel; [|reflexivity]. cbn.
    rewrite decide_True; [reflexivity|].
    exact (held_elem_of _ _ _ _ Hc Hel).
Qed.

Lemma Broadcast_skips_reaped_witness :
  exists s1 s2,
    ReapDeadPeers_pass (stop_peer three_inbound 1) 0 = Ret s1
    /\ Broadcast (fun _ => true) s1 "ping" [x01] = Ret s2
    /\ peer_of s2 2%nat = peer_of (stop_peer three_inbound 1) 2%nat
    /\ forall c, c ∈ [1%nat] ++ [3%nat] ->
         peer_of s2 c
         = (fun x => QueueMessage (fun _ => true) x (NewMessage "ping" [x01]))
             <$> peer_of (stop_peer three_inbound 1) c.
Proof.
  apply (Broadcast_skips_reaped (fun _ => true) (stop_peer three_inbound 1)
           [1%nat] [3%nat] 2%nat 0 "ping" [x01]).
  - unfold stop_peer. case_match; [apply set_peer_registry|];
      exact three_inbound_registry.
  - intros c Hc. apply list_elem_of_singleton in Hc. rewrite Hc. reflexivity.
  - reflexivity.
Defined.

(** *** The dead-peer test *)

(** X25.  The timeout of the test of [ReapDeadPeers] does not fire within
    300000000000 seconds of the last liveness update: a peer whose
    disconnect flag is not 1 is not dead until then. *)
Theorem dead_not_within_timeout (p : Peer) (now : Z) :
  disconnect p <> 1 ->
  - 2 ^ 63 <= now - lastPong p <= 300000000000 ->
  dead p now = false.
Proof.
  intros Hflag Hsilent. apply not_true_is_false. rewrite dead_iff.
  intros [H|[_ H]]; [contradiction|].
  unfold wrap_int64 in H.
  replace ((now - lastPong p + 2 ^ 63) mod 2 ^ 64) with (now - lastPong p + 2 ^ 63)
    in H by (symmetry; apply Z.mod_small; lia).
  lia.
Qed.

Lemma dead_not_within_timeout_witness :
  dead (mkPeer true 0 1000 []) 86401000 = false.
Proof. apply (dead_not_within_timeout (mkPeer true 0 1000 []) 86401000); simpl; lia. Defined.

Lemma reachable_total_witness :
  (forall pong, exists s', AddPeer three_inbound pong = Ret s')
  /\ (forall pong, exists s', ConnectToPeer three_inbound pong = Ret s')
  /\ (forall accepts msgType data,
        exists s', Broadcast accepts three_inbound msgType data = Ret s')
  /\ (forall now, exists s', ReapDeadPeers_pass three_inbound now = Ret s')
  /\ (exists ps, InboundPeers three_inbound = Ret ps)
  /\ (exists ps, OutboundPeers three_inbound = Ret ps).
Proof. apply (reachable_total three_inbound). exact three_inbound_reachable. Defined.

End RegistryUse.

(** ** The wire codec *)

Section WireCodec.

Import Ethutil.

(** Induction on a WireValue tree, with the hypothesis for every child of
    a sequence. *)
Lemma WireValue_tree_ind (P : WireValue -> Prop) :
  (forall b, P (ByteString b)) ->
  (forall l, Forall P l -> P (Sequence l)) ->
  forall w, P w.
Proof.
  intros Hb Hs. fix IH 1. intros [b|l]; [apply Hb|].
  apply Hs. induction l as [|w l IHl]; constructor; [apply IH | exact IHl].
Qed.

Lemma wire_of_iface_of (w : WireValue) : wire_of (iface_of w) = Some w.
Proof.
  induction w as [b|l IH] using WireValue_tree_ind; [reflexivity|].
  cbn [iface_of wire_of].
  enough (H : (fix all (d : list iface) : option (list WireValue) :=
                 match d with
                 | [] => Some []
                 | x :: r =>
                     match wire_of x, all r with
                     | Some w, Some ws => Some (w :: ws)
                     | _, _ => None
                     end
                 end) (map iface_of l) = Some l) by now rewrite H.
  induction IH as [|w l Hw _ IHl]; [reflexivity|].
  cbn [map]. now rewrite Hw, IHl.
Qed.

Variable put_header : tag -> nat -> list byte.
Variable get_header : list byte -> option (tag * nat * list byte).

(** The layout is symmetric between encode and decode for payloads
    shorter than [limit]. *)
Variable limit : Z.
Hypothesis header_symmetric :
  forall (t : tag) (n : nat) (rest : list byte),
    Z.of_nat n < limit ->
    get_header (put_header t n ++ rest) = Some (t, n, rest).

(** A header that can be told from the header of the other kind is not
    empty. *)
Lemma header_nonempty (t : tag) (n : nat) :
  Z.of_nat n < limit -> put_header t n <> [].
Proof.
  intros Hn Hnil.
  set (t' := match t with TagBytes => TagList | TagList => TagBytes end).
  assert (H0 : Z.of_nat 0 < limit) by lia.
  pose proof (header_symmetric t n (put_header t' 0 ++ []) Hn) as H1.
  pose proof (header_symmetric t' 0%nat [] H0) as H2.
  rewrite Hnil in H1. simpl in H1. rewrite H2 in H1.
  destruct t; simpl in t'; subst t'; discriminate H1.
Qed.

Lemma Encode_nonempty (w : WireValue) :
  Z.of_nat (length (Encode put_header w)) < limit ->
  (0 < length (Encode put_header w))%nat.
Proof.
  intros Hlim.
  destruct w as [b|l]; cbn [Encode] in *; rewrite length_app in *.
  all: match goal with
       | |- context [put_header ?t ?n] =>
           pose proof (header_nonempty t n ltac:(lia)) as Hne;
           destruct (put_header t n); [congruence | simpl; lia]
       end.
Qed.

(** Decoding what was encoded, followed by any bytes [rest], gives the
    tree back and leaves [rest]; the payload of a sequence decodes to its
    children. *)
Lemma decode_item_Encode (w : WireValue) :
  forall (fuel : nat) (rest : list byte),
    Z.of_nat (length (Encode put_header w)) < limit ->
    (2 * length (Encode put_header w) <= S fuel)%nat ->
    decode_item get_header fuel (Encode put_header w ++ rest) = Some (w, rest).
Proof.
  induction w as [b|l IH] using WireValue_tree_ind; intros fuel rest Hlim Hfuel.
  - pose proof (Encode_nonempty _ Hlim) as Hpos.
    destruct fuel as [|fuel]; [lia|].
    cbn [Encode decode_item] in *. rewrite length_app in Hlim.
    rewrite <- app_assoc, header_symmetric by lia.
    rewrite (proj2 (Nat.ltb_ge _ _)) by (rewrite length_app; lia).
    now rewrite take_app_length, drop_app_length.
  - pose proof (Encode_nonempty _ Hlim) as Hpos.
    destruct fuel as [|fuel]; [lia|].
    cbn [Encode decode_item] in *. cbv zeta in *.
    set (body := concat (map (Encode put_header) l)) in *.
    rewrite length_app in Hlim, Hfuel.
    pose proof (header_nonempty TagList (length body) ltac:(lia)) as Hne.
    assert (Hh : (0 < length (put_header TagList (length body)))%nat).
    { destruct (put_header TagList (length body)); [congruence | simpl; lia]. }
    rewrite <- app_assoc, header_symmetric by lia.
    rewrite (proj2 (Nat.ltb_ge _ _)) by (rewrite length_app; lia).
    rewrite take_app_length, drop_app_length.
    enough (Hitems : decode_items get_header fuel body = Some l)
      by now rewrite Hitems.
    assert (Hlim' : Z.of_nat (length body) < limit) by lia.
    assert (Hfuel' : (2 * length body <= fuel)%nat) by lia.
    clear Hlim Hfuel Hpos Hne Hh. subst body. revert fuel Hlim' Hfuel'.
    induction IH as [|w l Hw _ IHl]; intros fuel Hlim Hfuel.
    + destruct fuel; reflexivity.
    + cbn [map concat] in *. rewrite length_app in Hlim, Hfuel.
      assert (Hpos : (0 < length (Encode put_header w))%nat)
        by (apply Encode_nonempty; lia).
      destruct fuel as [|fuel]; [lia|].
      destruct (Encode put_header w ++ concat (map (Encode put_header) l))
        as [|x body] eqn:Hbody.
      { apply (f_equal length) in Hbody. rewrite length_app in Hbody.
        simpl in Hbody. lia. }
      cbn [decode_items]. rewrite <- Hbody.
      rewrite Hw by lia. rewrite IHl by lia. reflexivity.
Qed.

Lemma Decode_Encode_at_0 (w : WireValue) :
  Z.of_nat (length (Encode put_header w)) < limit ->
  Decode get_header (Encode put_header w) 0
  = Some (w, length (Encode put_header w)).
Proof.
  intros Hlim. pose proof (Encode_nonempty _ Hlim) as Hpos.
  unfold Decode. rewrite drop_0.
  rewrite <- (app_nil_r (Encode put_header w)) at 2.
  rewrite decode_item_Encode by (assumption || lia).
  simpl length. do 2 f_equal. lia.
Qed.

(** C1.  With a header layout that is symmetric between encode and decode,
    every WireValue tree whose encoding the layout can describe decodes
    from its encoding to itself: [NewValueFromBytes] of [Value.Encode] of
    the value is a value with an equal payload, and [Decode] consumes the
    whole encoding. *)
Theorem Decode_Encode_roundtrip (w : WireValue) :
  Z.of_nat (length (Encode put_header w)) < limit ->
  exists bs : list byte,
    Value_Encode put_header (NewValue (iface_of w)) = Some bs
    /\ NewValueFromBytes get_header bs = Some (NewValue (iface_of w))
    /\ Decode get_header bs 0 = Some (w, length bs).
Proof.
  intros Hlim. exists (Encode put_header w). split; [|split].
  - unfold Value_Encode. cbn [Val NewValue]. now rewrite wire_of_iface_of.
  - pose proof (Encode_nonempty _ Hlim) as Hpos.
    unfold NewValueFromBytes. rewrite Decode_Encode_at_0 by assumption.
    destruct (length (Encode put_header w)); [lia | reflexivity].
  - now apply Decode_Encode_at_0.
Qed.

End WireCodec.

(** ** The eight-byte layout *)

Section Header8.

Import Ethutil.

Lemma tag_of_tag_byte (t : tag) : tag_of_byte (tag_byte t) = Some t.
Proof. destruct t; reflexivity. Qed.

(** The eight-byte layout is symmetric for payloads shorter than [2^64]. *)
Lemma header8_symmetric (t : tag) (n : nat) (rest : list byte) :
  Z.of_nat n < 2 ^ 64 ->
  get_header8 (put_header8 t n ++ rest) = Some (t, n, rest).
Proof.
  intros Hn. unfold put_header8. rewrite <- app_comm_cons.
  unfold get_header8.
  assert (Hlen : length (be_bytes 8 (Z.of_nat n)) = 8%nat)
    by apply length_be_bytes.
  rewrite (proj2 (Nat.ltb_ge _ _)) by (rewrite length_app; lia).
  rewrite tag_of_tag_byte.
  rewrite <- Hlen at 1 3. rewrite take_app_length, drop_app_length.
  rewrite big_endian_be_bytes. change (256 ^ Z.of_nat 8) with (2 ^ 64).
  rewrite Z.mod_small by lia. now rewrite Nat2Z.id.
Qed.

(** The sample tree under the eight-byte layout. *)
Lemma Decode_Encode_roundtrip_witness :
  exists bs : list byte,
    Value_Encode put_header8 (NewValue (iface_of sample_tree)) = Some bs
    /\ NewValueFromBytes get_header8 bs = Some (NewValue (iface_of sample_tree))
    /\ Decode get_header8 bs 0 = Some (sample_tree, length bs).
Proof.
  apply (Decode_Encode_roundtrip put_header8 get_header8 (2 ^ 64)
           header8_symmetric sample_tree).
  vm_compute. reflexivity.
Defined.

(** A short length prefix and a payload cut short fail to decode. *)
Example Decode_short_prefix :
  Decode get_header8 [x00; x00; x00] 0 = None.
Proof. reflexivity. Qed.

Example Decode_truncated_payload :
  Decode get_header8 (put_header8 TagBytes 2 ++ [x07]) 0 = None.
Proof. vm_compute. reflexivity. Qed.

End Header8.
